(** * Insurance-Document-Parser: the field extraction engine

    A shallow embedding of [src/scorer.py] (class [ConfidenceScorer]) and
    [src/extractor.py] (class [FieldExtractor]), and the properties of the
    specification that concern them; then of [src/preprocessor.py]
    ([clean_text], [normalize_amount]) and of the pipeline and the table of
    [src/main.py], with properties read off the code.

    Modelling conventions.
    - A Python [str] is a sequence of Unicode code points: [list N].
    - A Python [float] is the rational number it denotes ([Qc], canonical
      rationals, so that equal numbers are equal terms), and every float
      operation rounds its exact result to binary64.
    - A Python [dict] is a [gmap]; the order in which [items()] enumerates it is
      the order of [map_to_list].
    - A raised exception is the left summand of a [sum].
    - The libraries the code calls and that are not part of the repository
      ([re], [rapidfuzz], the Unicode tables behind [str.lower], [str.isspace],
      [str.isdigit] and the regular-expression class [\d]) are the fields of
      the class [PyLib]; every definition and theorem is stated for an
      arbitrary instance. *)

From Stdlib Require Import Ascii String QArith Qcanon Qround Lqa Lia.
From stdpp Require Import base decidable option list numbers strings gmap.

Local Open Scope Qc_scope.

(** ** Strings *)

Definition char := N.
Definition str := list char.

(** [u "..."] is the [str] of an ASCII literal. *)
Definition u (s : string) : str :=
  Ascii.N_of_ascii <$> String.list_ascii_of_string s.

(** ** Python floats

    A finite [float] is the rational it denotes. An operation returns the
    exact result rounded to the nearest binary64 number, ties to the even
    significand. Infinities and NaN are outside the model: a similarity
    lies between 0 and 100 and nothing computed from it overflows. *)

(** Nearest integer, ties to the even one. *)
Definition round_half_even (x : Q) : Z :=
  let f := Qfloor x in
  match Qcompare (x - inject_Z f) (1 # 2) with
  | Lt => f
  | Gt => (f + 1)%Z
  | Eq => if Z.even f then f else (f + 1)%Z
  end.

(** The smallest positive binary64 number is [1 / SUBNORMAL_SCALE]: every
    binary64 number is a whole multiple of it. *)
Definition SUBNORMAL_SCALE : Z := 2 ^ 1074.

(** For [X] counted in multiples of the smallest number: the exponent of the
    last place of a 53 bit significand. *)
Definition binade (X : Q) : Z :=
  Z.max (Z.log2 (Qfloor X) - 52) 0.

Definition round_scaled (X : Q) : Z :=
  (round_half_even (X / inject_Z (2 ^ binade X)) * 2 ^ binade X)%Z.

(** Rounding of a non-negative rational to binary64. *)
Definition fl_nonneg (x : Q) : Q :=
  (inject_Z (round_scaled (x * inject_Z SUBNORMAL_SCALE))
     / inject_Z SUBNORMAL_SCALE)%Q.

(** Rounding to binary64. *)
Definition fl (x : Q) : Q :=
  match Qcompare x 0 with
  | Lt => (- fl_nonneg (- x))%Q
  | _ => fl_nonneg x
  end.

(** The float a decimal literal denotes, as [0.95] or [100.0]. *)
Definition py_float (x : Q) : Qc := Q2Qc (fl x).

(** [x / y] and [x * y] on floats. *)
Definition fdiv (x y : Qc) : Qc := py_float (x / y)%Q.
Definition fmul (x y : Qc) : Qc := py_float (x * y)%Q.

(** [round(x, 2)]: the float nearest to the nearest multiple of 1/100 of the
    exact value of [x], ties to the even multiple. *)
Definition round2 (x : Qc) : Qc :=
  py_float (inject_Z (round_half_even (x * 100)%Q) / 100)%Q.

Global Arguments fl : simpl never.
Global Arguments py_float : simpl never.
Global Arguments fdiv : simpl never.
Global Arguments fmul : simpl never.
Global Arguments round2 : simpl never.

(** ** [scorer.py]: the confidence model *)

(** [ConfidenceScorer.calculate(method, match_quality)] *)
Definition calculate (method : string) (match_quality : Qc) : Qc :=
  if decide (method = "regex") then
    py_float 0.95
  else if decide (method = "fuzzy") then
    let normalized_score := fdiv match_quality (py_float 100) in
    round2 (fmul normalized_score (py_float 0.85))
  else
    py_float 0.

(** The default of the parameter [match_quality], [100.0]. *)
Definition default_match_quality : Qc := py_float 100.

Global Arguments calculate : simpl never.

(** ** The Python libraries the extractor calls *)

Class PyLib := {
  (** [re.search(pattern, text, re.IGNORECASE | re.MULTILINE)] for a pattern
      that compiles: [None] when there is no match, otherwise the tuple
      [match.groups()], in which a group that took no part in the match is
      [None]. *)
  re_search : str → str → option (list (option str));
  (** [rapidfuzz.fuzz.partial_ratio] *)
  partial_ratio : str → str → Qc;
  (** [str.lower] *)
  str_lower : str → str;
  (** [str.isspace] on one character; also the class [\s] of [re]. *)
  isspace : char → bool;
  (** [str.isdigit] on one character. *)
  isdigit : char → bool;
  (** The class [\d] of [re]. *)
  re_digit : char → bool;
}.

(** The exceptions [extract] can raise on a well-typed registry. *)
Inductive PyError :=
  | IndexError      (* tuple index out of range *)
  | AttributeError. (* 'NoneType' object has no attribute 'strip' *)

Global Instance PyError_eq_dec : EqDecision PyError.
Proof. solve_decision. Defined.

Global Instance exc_ret : MRet (sum PyError) := fun A x => inr x.
Global Instance exc_bind : MBind (sum PyError) := fun A B f m =>
  match m with
  | inl e => inl e
  | inr x => f x
  end.

Global Instance exc_fmap : FMap (sum PyError) := fun A B f m =>
  match m with
  | inl e => inl e
  | inr x => inr (f x)
  end.

(** ** [extractor.py] *)

(** The method of a result: the strings ["none"], ["regex"] and
    [f"fuzzy (score: {best_method_score})"]. *)
Inductive Method :=
  | MethodNone
  | MethodRegex
  | MethodFuzzy (score : Qc).

(** One entry of the result: the dict with the keys ["value"],
    ["confidence"] and ["method"]. *)
Record ExtractionResult := {
  value : option str;
  confidence : Qc;
  method : Method;
}.

(** One entry of the pattern registry: [config["regex"]] and
    [config["keywords"]]. *)
Record FieldSpec := {
  regex : str;
  keywords : list str;
}.

(** The three locals of [_fuzzy_search]. *)
Record Best := {
  best_candidate : option str;
  best_score : Qc;
  best_method_score : Qc;
}.

Definition NEWLINE : char := 10%N.
Definition COMMA : char := 44%N.
Definition DOT : char := 46%N.

(** The literal [Rs\.] of the number pattern. *)
Definition RS_MARK : str := u "Rs.".
(** The second currency marker of the number pattern, as the source file
    holds it: the three characters U+00E2, U+201A, U+00B9. *)
Definition CURRENCY_MARK : str := [226%N; 8218%N; 185%N].

(** Truth value of a [str]. *)
Definition truthy (s : str) : bool :=
  match s with
  | [] => false
  | _ :: _ => true
  end.

(** Truth value of [extracted_data["value"]]: [None] and the empty string
    are false. *)
Definition value_truthy (v : option str) : bool :=
  match v with
  | None => false
  | Some s => truthy s
  end.

(** [text.split("\n")] *)
Fixpoint split_lines (text : str) : list str :=
  match text with
  | [] => [[]]
  | c :: rest =>
      if decide (c = NEWLINE) then [] :: split_lines rest
      else match split_lines rest with
           | line :: lines => (c :: line) :: lines
           | [] => [[c]]
           end
  end.

Fixpoint take_while (p : char → bool) (s : str) : str :=
  match s with
  | c :: rest => if p c then c :: take_while p rest else []
  | [] => []
  end.

(** [Some rest] when [s = prefix ++ rest]. *)
Fixpoint strip_prefix (prefix s : str) : option str :=
  match prefix, s with
  | [], _ => Some s
  | p :: prefix', c :: rest =>
      if decide (p = c) then strip_prefix prefix' rest else None
  | _ :: _, [] => None
  end.

Definition default_result : ExtractionResult :=
  {| value := None; confidence := py_float 0; method := MethodNone |}.

Definition THRESHOLD : Qc := Q2Qc (85 # 1).

Section Extractor.
Context `{PyLib}.

Fixpoint lstrip (s : str) : str :=
  match s with
  | c :: rest => if isspace c then lstrip rest else s
  | [] => []
  end.

(** [s.strip()] *)
Definition strip (s : str) : str :=
  reverse (lstrip (reverse (lstrip s))).

(** *** The number pattern

    An optional currency marker [(?:Rs\.|<mark>)?], an optional white
    space [\s?], and the one group, around [[\d,]+\.?\d*]. *)

(** The class [[\d,]]. *)
Definition number_class (c : char) : bool :=
  re_digit c || bool_decide (c = COMMA).

(** The group, [[\d,]+\.?\d*] in parentheses, at the head of [s]: its
    capture and the rest of [s]. Each of the three parts is greedy and
    nothing after the first is required, so the longest of each is the
    match. *)
Definition match_number (s : str) : option (str * str) :=
  match take_while number_class s with
  | [] => None
  | body =>
      let s1 := drop (length body) s in
      let '(dot, s2) :=
        match s1 with
        | c :: rest => if decide (c = DOT) then ([c], rest) else ([], s1)
        | [] => ([], s1)
        end in
      let frac := take_while re_digit s2 in
      Some (body ++ dot ++ frac, drop (length frac) s2)
  end.

(** [(?:Rs\.|<mark>)?]: the ways to go on, the marker taken first. *)
Definition opt_currency (s : str) : list str :=
  match strip_prefix RS_MARK s with
  | Some rest => [rest; s]
  | None =>
      match strip_prefix CURRENCY_MARK s with
      | Some rest => [rest; s]
      | None => [s]
      end
  end.

(** [\s?]: the ways to go on, the space taken first. *)
Definition opt_space (s : str) : list str :=
  match s with
  | c :: rest => if isspace c then [rest; s] else [s]
  | [] => [s]
  end.

(** The whole pattern at the head of [s]: the first alternative, in the
    order the backtracking matcher tries them, after which the group
    matches. *)
Definition match_here (s : str) : option (str * str) :=
  head (omap match_number (opt_currency s ≫= opt_space)).

(** Scan from left to right; [skip] counts the characters of the last
    match that are still to be passed over. *)
Fixpoint findall_from (skip : nat) (s : str) : list str :=
  match s with
  | [] => []
  | _ :: s' =>
      match skip with
      | S k => findall_from k s'
      | O =>
          match match_here s with
          | Some (token, rest) =>
              token :: findall_from (length s' - length rest) s'
          | None => findall_from 0 s'
          end
      end
  end.

(** [re.findall(NUMBER_PATTERN, line)]: the captures of the one group. *)
Definition findall_numbers (line : str) : list str :=
  findall_from 0 line.

(** [[n for n in numbers if n.strip() and any(c.isdigit() for c in n)]] *)
Definition valid_values (numbers : list str) : list str :=
  List.filter (fun n => truthy (strip n) && existsb isdigit n) numbers.

(** *** [FieldExtractor._fuzzy_search] *)

(** The body of [for keyword in keywords]. *)
Definition keyword_step (line : str) (b : Best) (keyword : str) : Best :=
  let score := partial_ratio (str_lower keyword) (str_lower line) in
  if decide (THRESHOLD ≤ score) then
    let numbers := findall_numbers line in
    (* [if valid_values:] then [valid_values[-1]] *)
    match last (valid_values numbers) with
    | Some v =>
        let confidence := calculate "fuzzy" score in
        if decide (best_score b < confidence) then
          {| best_candidate := Some v;
             best_score := confidence;
             best_method_score := score |}
        else b
    | None => b
    end
  else b.

(** The body of [for line in lines]. *)
Definition line_step (keywords : list str) (b : Best) (line : str) : Best :=
  if truthy (strip line) then foldl (keyword_step line) b keywords
  else b.

Definition initial_best : Best :=
  {| best_candidate := None; best_score := Q2Qc 0; best_method_score := Q2Qc 0 |}.

Definition _fuzzy_search (lines : list str) (keywords : list str)
  : option ExtractionResult :=
  let b := foldl (line_step keywords) initial_best lines in
  if value_truthy (best_candidate b) then
    Some {| value := best_candidate b;
            confidence := best_score b;
            method := MethodFuzzy (best_method_score b) |}
  else None.

(** *** [FieldExtractor.extract] *)

(** Strategy 1 of the loop body: the regular expression. *)
Definition regex_stage (text : str) (config : FieldSpec)
  : PyError + ExtractionResult :=
  match re_search (regex config) text with
  | Some groups =>
      (* [match.groups()[-1].strip()] *)
      match last groups with
      | None => inl IndexError
      | Some None => inl AttributeError
      | Some (Some g) =>
          inr {| value := Some (strip g);
                 confidence := calculate "regex" default_match_quality;
                 method := MethodRegex |}
      end
  | None => inr default_result
  end.

(** The body of [for field_name, config in self.patterns.items()]. *)
Definition extract_field (text : str) (lines : list str) (config : FieldSpec)
  : PyError + ExtractionResult :=
  extracted_data ← regex_stage text config;
  if value_truthy (value extracted_data) then mret extracted_data
  else
    match _fuzzy_search lines (keywords config) with
    | Some fuzzy_res => mret fuzzy_res
    | None => mret extracted_data
    end.

Fixpoint extract_items (text : str) (lines : list str)
    (items : list (str * FieldSpec)) (results : gmap str ExtractionResult)
  : PyError + gmap str ExtractionResult :=
  match items with
  | [] => mret results
  | (field_name, config) :: rest =>
      extracted_data ← extract_field text lines config;
      extract_items text lines rest (<[field_name := extracted_data]> results)
  end.

Definition extract (patterns : gmap str FieldSpec) (text : str)
  : PyError + gmap str ExtractionResult :=
  let lines := split_lines text in
  extract_items text lines (map_to_list patterns) ∅.

End Extractor.

(** ** The notions of the specification

    The candidates of the approximate matcher and their arbitration, as the
    specification describes them, and names for the outcomes of the loop
    body of [extract]. *)

(** What one accepted (line, keyword) pair offers. *)
Record Candidate := {
  cand_value : str;
  cand_confidence : Qc;
  cand_score : Qc;
}.

Definition result_of (c : Candidate) : ExtractionResult :=
  {| value := Some (cand_value c);
     confidence := cand_confidence c;
     method := MethodFuzzy (cand_score c) |}.

Section Notions.
Context `{PyLib}.

(** Steps 2 to 6 of the specification for one pair: the pair is accepted
    when its similarity reaches the threshold, and then offers the last
    numeric token of the line, if there is one. *)
Definition pair_candidate (line keyword : str) : option Candidate :=
  let score := partial_ratio (str_lower keyword) (str_lower line) in
  if decide (THRESHOLD ≤ score) then
    v ← last (valid_values (findall_numbers line));
    Some {| cand_value := v;
            cand_confidence := calculate "fuzzy" score;
            cand_score := score |}
  else None.

(** The shape of what the group of the number pattern captures: digits and
    commas, at least one, then at most one dot, then digits. *)
Definition number_token (token : str) : Prop :=
  ∃ body dot frac, token = body ++ dot ++ frac
    ∧ body ≠ []
    ∧ Forall (fun c => number_class c = true) body
    ∧ (dot = [] ∨ dot = [DOT])
    ∧ Forall (fun c => re_digit c = true) frac.

(** The result of the regular expression stage on the capture [g]. *)
Definition regex_result (g : str) : ExtractionResult :=
  {| value := Some (strip g);
     confidence := py_float 0.95;
     method := MethodRegex |}.

(** All candidates in the order the matcher meets them: lines outermost,
    blank lines dropped, keywords in registry order. *)
Definition candidates (lines keywords : list str) : list Candidate :=
  line ← List.filter (fun l => truthy (strip l)) lines;
  omap (pair_candidate line) keywords.

(** Step 7: keep the first candidate of strictly greatest confidence. *)
Definition arbitrate_step (best : option Candidate) (c : Candidate)
  : option Candidate :=
  match best with
  | None => Some c
  | Some b => if decide (cand_confidence b < cand_confidence c) then Some c else Some b
  end.

Definition arbitrate (cs : list Candidate) : option Candidate :=
  foldl arbitrate_step None cs.

(** The locals of [_fuzzy_search] when [best] is the best candidate so far. *)
Definition best_of (best : option Candidate) : Best :=
  match best with
  | None => initial_best
  | Some c =>
      {| best_candidate := Some (cand_value c);
         best_score := cand_confidence c;
         best_method_score := cand_score c |}
  end.

(** The fallback of the loop body: the outcome of the regular expression
    stage is kept unless its value is false and the matcher finds a
    candidate. *)
Definition with_fallback (lines : list str) (config : FieldSpec)
    (extracted_data : ExtractionResult) : ExtractionResult :=
  if value_truthy (value extracted_data) then extracted_data
  else default extracted_data (_fuzzy_search lines (keywords config)).

(** The capture is usable: no match, or a match whose last group exists and
    took part in it. *)
Definition capture_ok (text : str) (config : FieldSpec) : Prop :=
  match re_search (regex config) text with
  | None => True
  | Some groups => ∃ g, last groups = Some (Some g)
  end.

End Notions.

(** ** An instance of the libraries for ASCII text

    The character classes and [lower] are those of Python on ASCII
    characters. [re.search] and [partial_ratio] are given by tables that fix
    their answers on the inputs of the examples; off the tables they answer
    no match and 0. *)

Definition ascii_isspace (c : char) : bool :=
  ((9 <=? c) && (c <=? 13) || (28 <=? c) && (c <=? 32))%N.

Definition ascii_isdigit (c : char) : bool :=
  ((48 <=? c) && (c <=? 57))%N.

Definition ascii_lower (c : char) : char :=
  (if (65 <=? c) && (c <=? 90) then c + 32 else c)%N.

Fixpoint table_lookup {V} (table : list (str * str * V)) (a b : str) : option V :=
  match table with
  | [] => None
  | (a', b', v) :: rest =>
      if decide (a' = a ∧ b' = b) then Some v else table_lookup rest a b
  end.

Definition table_lib (searches : list (str * str * list (option str)))
    (ratios : list (str * str * Qc)) : PyLib :=
  {| re_search p t := table_lookup searches p t;
     partial_ratio k l := default (Q2Qc 0) (table_lookup ratios k l);
     str_lower s := ascii_lower <$> s;
     isspace := ascii_isspace;
     isdigit := ascii_isdigit;
     re_digit := ascii_isdigit |}.

(** *** The inputs of the examples *)

(** The answers of [re.search], with the flags of [extract], on the patterns
    and texts of the examples. *)
Definition SAMPLE_SEARCHES : list (str * str * list (option str)) :=
  [ (u "(Policy Number):\s*([A-Z0-9]+)$", u "Policy Number: ABC12345",
     [Some (u "Policy Number"); Some (u "ABC12345")]);
    (u "(Premium):(\s*)", u "Premium:", [Some (u "Premium"); Some []]);
    (u "(Premium)\s*(\d+)?", u "Premium due", [Some (u "Premium"); None]);
    (u "Policy Number", u "Policy Number: 12345", []) ].

(** The answers of [partial_ratio] on lowered keywords and lines. A keyword
    that occurs in the line as it stands scores 100; the line with the
    misspelt label stands for a pair of similarity 90. *)
Definition SAMPLE_RATIOS : list (str * str * Qc) :=
  [ (u "premium", u "total premium payable rs. 25,000.00 only", py_float 100);
    (u "premium", u "premium:", py_float 100);
    (u "sum assured", u "sum assured 2,000", py_float 100);
    (u "sum assured", u "sum asured 1,000", py_float 90) ].

Definition sample_lib : PyLib := table_lib SAMPLE_SEARCHES SAMPLE_RATIOS.

Definition POLICY_NUMBER : FieldSpec :=
  {| regex := u "(Policy Number):\s*([A-Z0-9]+)$";
     keywords := [u "Policy Number"; u "Policy No"] |}.

Definition PREMIUM : FieldSpec :=
  {| regex := u "(Premium)\s*:\s*([\d,.]+)"; keywords := [u "Premium"] |}.

Definition SUM_ASSURED : FieldSpec :=
  {| regex := u "(Sum Assured)\s*:\s*([\d,.]+)"; keywords := [u "Sum Assured"] |}.

(** A pattern whose last group may capture the empty string. *)
Definition PREMIUM_EMPTY_CAPTURE : FieldSpec :=
  {| regex := u "(Premium):(\s*)"; keywords := [u "Premium"] |}.

(** A pattern whose last group is optional. *)
Definition PREMIUM_OPTIONAL_GROUP : FieldSpec :=
  {| regex := u "(Premium)\s*(\d+)?"; keywords := [u "Premium"] |}.

(** A pattern without a group, and no keywords. *)
Definition POLICY_NUMBER_BROKEN : FieldSpec :=
  {| regex := u "Policy Number"; keywords := [] |}.

Definition SAMPLE_PATTERNS : gmap str FieldSpec :=
  {[ u "policy_number" := POLICY_NUMBER; u "premium" := PREMIUM ]}.

Definition UNRELATED_TEXT : str :=
  u "Random unrelated document with no relevant labels.".

Definition PREMIUM_TEXT : str := u "Total Premium Payable Rs. 25,000.00 only".

(** Scenario E of the specification, the better line last and first. *)
Definition SUM_ASSURED_LINES : list str :=
  [u "Sum Asured 1,000"; u "Sum Assured 2,000"].
Definition SUM_ASSURED_LINES_REV : list str :=
  [u "Sum Assured 2,000"; u "Sum Asured 1,000"].

Definition fuzzy_result (v : str) (conf score : Q) : ExtractionResult :=
  {| value := Some v; confidence := py_float conf;
     method := MethodFuzzy (py_float score) |}.

(** ** [preprocessor.py] and the output of [main.py] *)

(** The Unicode data the preprocessor needs beyond [PyLib]. *)
Class PyText := {
  (** [str.isprintable] on one character. *)
  isprintable : char → bool;
  (** The decimal value, 0 to 9, of a character of the class [\d], as
      [float] reads it. *)
  digit_value : char → N;
}.

Definition SPACE : char := 32%N.
Definition NBSP : char := 160%N.

(** A float that may have overflowed. *)
Inductive PyFloat :=
  | Finite (x : Qc)
  | Infinity.

(** The least power of two that binary64 does not reach. *)
Definition OVERFLOW : Q := inject_Z (2 ^ 1024).

(** The float nearest to a non-negative rational, as the conversion of a
    decimal string computes it: infinity when the rounding leaves the
    range. *)
Definition float_of_decimal (q : Q) : PyFloat :=
  if Qle_bool OVERFLOW (fl q) then Infinity else Finite (py_float q).

(** ["\n".join(lines)] *)
Fixpoint join_lines (lines : list str) : str :=
  match lines with
  | [] => []
  | line :: rest =>
      match rest with
      | [] => line
      | _ :: _ => line ++ NEWLINE :: join_lines rest
      end
  end.

Section Preprocessor.
Context `{PyLib} `{PyText}.

(** [text.replace("\xa0", " ")] *)
Definition replace_nbsp (text : str) : str :=
  (fun ch => if decide (ch = NBSP) then SPACE else ch) <$> text.

(** ["".join(ch for ch in text if ch.isprintable() or ch == '\n')] *)
Definition drop_unprintable (text : str) : str :=
  List.filter (fun ch => isprintable ch || bool_decide (ch = NEWLINE)) text.

(** [re.sub(r"\s+", " ", line)]: every longest run of white space becomes
    one space; [in_run] tells that the run has begun. *)
Fixpoint sub_spaces (in_run : bool) (line : str) : str :=
  match line with
  | [] => []
  | ch :: rest =>
      if isspace ch then
        if in_run then sub_spaces true rest
        else SPACE :: sub_spaces true rest
      else ch :: sub_spaces false rest
  end.

(** [re.sub(r"\s+", " ", line).strip()] *)
Definition clean_line (line : str) : str :=
  strip (sub_spaces false line).

(** [clean_text(text)] *)
Definition clean_text (text : str) : str :=
  if truthy text then
    let text := replace_nbsp text in
    let text := drop_unprintable text in
    let lines := split_lines text in
    let cleaned_lines := clean_line <$> lines in
    join_lines cleaned_lines
  else [].

(** [re.sub(r"[^\d.]", "", amount_str)] *)
Definition amount_chars (amount_str : str) : str :=
  List.filter (fun ch => re_digit ch || bool_decide (ch = DOT)) amount_str.

(** The number a string of decimal digits writes. *)
Definition digits_value (digits : str) : N :=
  foldl (fun acc ch => (10 * acc + digit_value ch)%N) 0%N digits.

(** [float(cleaned)] on a string of decimal digits and dots, before the
    rounding: the string must hold a digit and at most one dot; [None] is
    the [ValueError]. *)
Definition parse_decimal (cleaned : str) : option Q :=
  let whole := take_while re_digit cleaned in
  match drop (length whole) cleaned with
  | [] =>
      if truthy whole then Some (inject_Z (Z.of_N (digits_value whole)))
      else None
  | ch :: frac =>
      if bool_decide (ch = DOT) && forallb re_digit frac
         && (truthy whole || truthy frac)
      then Some (inject_Z (Z.of_N (digits_value (whole ++ frac)))
                 / inject_Z (10 ^ Z.of_nat (length frac)))%Q
      else None
  end.

(** [normalize_amount(amount_str)] *)
Definition normalize_amount (amount_str : str) : PyFloat :=
  if truthy amount_str then
    let cleaned := amount_chars amount_str in
    match parse_decimal cleaned with
    | Some q => float_of_decimal q
    | None => Finite (py_float 0)
    end
  else Finite (py_float 0).

(** The value cell of the table [main] prints:
    [data['value'] if data['value'] else "Not Found"]. *)
Definition display_value (data : ExtractionResult) : str :=
  match value data with
  | Some (ch :: rest) => ch :: rest
  | _ => u "Not Found"
  end.

(** White space occurs in [s] only as single spaces. *)
Fixpoint single_spaced (s : str) : Prop :=
  match s with
  | [] => True
  | ch :: rest =>
      (isspace ch = true →
         ch = SPACE ∧ ∀ ch', head rest = Some ch' → isspace ch' = false)
      ∧ single_spaced rest
  end.

(** A line as [clean_text] leaves it: cleaned on its own. *)
Definition clean_source_line (line : str) : str :=
  clean_line (drop_unprintable (replace_nbsp line)).

End Preprocessor.

(** The ASCII instance of [PyText]. *)
Definition ascii_isprintable (c : char) : bool :=
  ((32 <=? c) && (c <=? 126))%N.

Definition ascii_text : PyText :=
  {| isprintable := ascii_isprintable;
     digit_value c := (c - 48)%N |}.

(** The better of two results of the matcher: the second only when its
    confidence is strictly greater. *)
Definition better (r1 r2 : option ExtractionResult) : option ExtractionResult :=
  match r1, r2 with
  | Some a, Some b => if decide (confidence a < confidence b) then Some b else Some a
  | Some a, None => Some a
  | None, _ => r2
  end.

(** * Properties *)

(** ** Rounding lemmas *)

Lemma round_half_even_cases (x : Q) :
  round_half_even x = Qfloor x ∨ round_half_even x = (Qfloor x + 1)%Z.
Proof.
  unfold round_half_even.
  destruct (Qcompare _ _); [destruct (Z.even _)|..]; auto.
Qed.

Lemma round_half_even_mono (x y : Q) :
  (x <= y)%Q → (round_half_even x <= round_half_even y)%Z.
Proof.
  intros Hxy.
  pose proof (Qfloor_resp_le _ _ Hxy) as Hf.
  destruct (Z.eq_dec (Qfloor x) (Qfloor y)) as [Heq|Hne].
  - unfold round_half_even. rewrite <- Heq.
    destruct (Qcompare_spec (x - inject_Z (Qfloor x)) (1 # 2)) as [Hx|Hx|Hx];
      destruct (Qcompare_spec (y - inject_Z (Qfloor x)) (1 # 2)) as [Hy|Hy|Hy];
      try destruct (Z.even (Qfloor x)); try lia; exfalso; lra.
  - destruct (round_half_even_cases x) as [->| ->],
      (round_half_even_cases y) as [->| ->]; lia.
Qed.

Lemma round_half_even_inject (n : Z) : round_half_even (inject_Z n) = n.
Proof.
  unfold round_half_even. rewrite Qfloor_Z.
  destruct (Qcompare_spec (inject_Z n - inject_Z n) (1 # 2)) as [Hx|Hx|Hx];
    try reflexivity; exfalso; lra.
Qed.

Lemma round_half_even_near (x : Q) :
  (x - (1 # 2) <= inject_Z (round_half_even x) <= x + (1 # 2))%Q.
Proof.
  pose proof (Qfloor_le x) as Hlo. pose proof (Qlt_floor x) as Hhi.
  rewrite inject_Z_plus in Hhi. change (inject_Z 1) with 1%Q in Hhi.
  unfold round_half_even.
  destruct (Qcompare_spec (x - inject_Z (Qfloor x)) (1 # 2)) as [Hx|Hx|Hx];
    try destruct (Z.even (Qfloor x)); rewrite ?inject_Z_plus;
    change (inject_Z 1) with 1%Q; lra.
Qed.

(** ** The rounding to binary64 is monotone *)

Lemma binade_nonneg (X : Q) : (0 <= binade X)%Z.
Proof. unfold binade. lia. Qed.

Lemma binade_mono (X Y : Q) : (X <= Y)%Q → (binade X <= binade Y)%Z.
Proof.
  intros HXY. unfold binade.
  pose proof (Z.log2_le_mono _ _ (Qfloor_resp_le _ _ HXY)). lia.
Qed.

(** Below the top of its binade. *)
Lemma binade_upper (X : Q) :
  (0 <= X)%Q → (X < inject_Z (2 ^ (binade X + 53)))%Q.
Proof.
  intros HX.
  assert (Qfloor X + 1 <= 2 ^ (binade X + 53))%Z as Hle.
  { assert (0 <= Qfloor X)%Z as Hf.
    { rewrite <- (Qfloor_Z 0). by apply Qfloor_resp_le. }
    destruct (Z.eq_dec (Qfloor X) 0%Z) as [Hz|Hne].
    - pose proof (binade_nonneg X).
      assert (2 ^ 0 <= 2 ^ (binade X + 53))%Z as Hp by (apply Z.pow_le_mono_r; lia).
      rewrite Z.pow_0_r in Hp. lia.
    - pose proof (Z.log2_spec (Qfloor X) ltac:(lia)) as [_ Hlt].
      assert (2 ^ Z.succ (Z.log2 (Qfloor X)) <= 2 ^ (binade X + 53))%Z.
      { apply Z.pow_le_mono_r; [lia|]. unfold binade. lia. }
      lia. }
  eapply Qlt_le_trans; [apply Qlt_floor|]. by rewrite <- Zle_Qle.
Qed.

(** Above the bottom of its binade, when that is not the lowest one. *)
Lemma binade_lower (X : Q) :
  (0 < binade X)%Z → (inject_Z (2 ^ (binade X + 52)) <= X)%Q.
Proof.
  intros Hb. unfold binade in *.
  assert (0 < Qfloor X)%Z as Hf.
  { destruct (Z.lt_ge_cases 0 (Qfloor X)) as [|Hle]; [done|].
    rewrite (Z.log2_nonpos _ Hle) in Hb. lia. }
  pose proof (Z.log2_spec (Qfloor X) Hf) as [Hlo _].
  eapply Qle_trans; [|apply Qfloor_le]. rewrite <- Zle_Qle.
  replace (Z.max (Z.log2 (Qfloor X) - 52) 0 + 52)%Z with (Z.log2 (Qfloor X)) by lia.
  done.
Qed.

Lemma pow2_Q_pos (e : Z) : (0 <= e)%Z → (0 < inject_Z (2 ^ e))%Q.
Proof.
  intros He. change 0%Q with (inject_Z 0). rewrite <- Zlt_Qlt.
  by apply Z.pow_pos_nonneg.
Qed.

Lemma round_scaled_upper (X : Q) :
  (0 <= X)%Q → (round_scaled X <= 2 ^ (binade X + 53))%Z.
Proof.
  intros HX. unfold round_scaled.
  pose proof (binade_nonneg X) as HE.
  rewrite (Z.add_comm _ 53), Z.pow_add_r by lia.
  apply Z.mul_le_mono_nonneg_r; [by apply Z.pow_nonneg|].
  rewrite <- (round_half_even_inject (2 ^ 53)).
  apply round_half_even_mono, Qlt_le_weak, Qlt_shift_div_r.
  - by apply pow2_Q_pos.
  - rewrite <- inject_Z_mult, <- Z.pow_add_r, (Z.add_comm 53) by lia.
    by apply binade_upper.
Qed.

Lemma round_scaled_lower (X : Q) :
  (0 < binade X)%Z → (2 ^ (binade X + 52) <= round_scaled X)%Z.
Proof.
  intros HE. unfold round_scaled.
  rewrite (Z.add_comm _ 52), Z.pow_add_r by lia.
  apply Z.mul_le_mono_nonneg_r; [apply Z.pow_nonneg; lia|].
  rewrite <- (round_half_even_inject (2 ^ 52)) at 1.
  apply round_half_even_mono, Qle_shift_div_l.
  - apply pow2_Q_pos. lia.
  - rewrite <- inject_Z_mult, <- Z.pow_add_r, (Z.add_comm 52) by lia.
    by apply binade_lower.
Qed.

Lemma round_scaled_mono (X Y : Q) :
  (0 <= X)%Q → (X <= Y)%Q → (round_scaled X <= round_scaled Y)%Z.
Proof.
  intros HX HXY.
  pose proof (binade_mono _ _ HXY) as HE.
  pose proof (binade_nonneg X) as HEX.
  destruct (Z.eq_dec (binade X) (binade Y)) as [Heq|Hne].
  - unfold round_scaled. rewrite <- Heq.
    apply Z.mul_le_mono_nonneg_r; [by apply Z.pow_nonneg|].
    apply round_half_even_mono, Qmult_le_compat_r; [done|].
    apply Qlt_le_weak, Qinv_lt_0_compat. by apply pow2_Q_pos.
  - etrans; [by apply round_scaled_upper|].
    etrans; [|apply round_scaled_lower; lia].
    apply Z.pow_le_mono_r; lia.
Qed.

Lemma scale_pos : (0 < inject_Z SUBNORMAL_SCALE)%Q.
Proof. by apply (pow2_Q_pos 1074). Qed.

Lemma fl_nonneg_mono (x y : Q) :
  (0 <= x)%Q → (x <= y)%Q → (fl_nonneg x <= fl_nonneg y)%Q.
Proof.
  intros Hx Hxy. unfold fl_nonneg.
  pose proof scale_pos as HS.
  apply Qmult_le_compat_r; [|by apply Qlt_le_weak, Qinv_lt_0_compat].
  rewrite <- Zle_Qle. apply round_scaled_mono.
  - apply Qmult_le_0_compat; [done|by apply Qlt_le_weak].
  - apply Qmult_le_compat_r; [done|by apply Qlt_le_weak].
Qed.

Lemma round_scaled_nonneg (X : Q) : (0 <= X)%Q → (0 <= round_scaled X)%Z.
Proof.
  intros HX. unfold round_scaled.
  apply Z.mul_nonneg_nonneg; [|apply Z.pow_nonneg; lia].
  rewrite <- (round_half_even_inject 0).
  apply round_half_even_mono, Qmult_le_0_compat; [done|].
  apply Qlt_le_weak, Qinv_lt_0_compat, pow2_Q_pos, binade_nonneg.
Qed.

Lemma fl_nonneg_nonneg (x : Q) : (0 <= x)%Q → (0 <= fl_nonneg x)%Q.
Proof.
  intros Hx. unfold fl_nonneg. pose proof scale_pos as HS.
  apply Qmult_le_0_compat; [|by apply Qlt_le_weak, Qinv_lt_0_compat].
  change 0%Q with (inject_Z 0). rewrite <- Zle_Qle.
  apply round_scaled_nonneg, Qmult_le_0_compat; [done|by apply Qlt_le_weak].
Qed.

Lemma fl_mono (x y : Q) : (x <= y)%Q → (fl x <= fl y)%Q.
Proof.
  intros Hxy. unfold fl.
  destruct (Qcompare_spec x 0) as [Hx|Hx|Hx];
    destruct (Qcompare_spec y 0) as [Hy|Hy|Hy]; try (exfalso; lra);
    try (apply fl_nonneg_mono; lra).
  - assert (0 <= fl_nonneg (- x))%Q by (apply fl_nonneg_nonneg; lra).
    assert (0 <= fl_nonneg y)%Q by (apply fl_nonneg_nonneg; lra). lra.
  - assert (fl_nonneg (- y) <= fl_nonneg (- x))%Q by (apply fl_nonneg_mono; lra).
    lra.
  - assert (0 <= fl_nonneg (- x))%Q by (apply fl_nonneg_nonneg; lra).
    assert (0 <= fl_nonneg y)%Q by (apply fl_nonneg_nonneg; lra). lra.
Qed.

Lemma py_float_mono (x y : Q) : (x <= y)%Q → (py_float x ≤ py_float y)%Qc.
Proof.
  intros Hxy. unfold py_float, Qcle. simpl. rewrite !Qred_correct.
  by apply fl_mono.
Qed.

Lemma fdiv_mono (x y d : Qc) : (0 < d)%Qc → (x ≤ y)%Qc → (fdiv x d ≤ fdiv y d)%Qc.
Proof.
  intros Hd Hxy. apply py_float_mono.
  apply Qmult_le_compat_r; [done|]. by apply Qlt_le_weak, Qinv_lt_0_compat.
Qed.

Lemma fmul_mono (x y c : Qc) : (0 ≤ c)%Qc → (x ≤ y)%Qc → (fmul x c ≤ fmul y c)%Qc.
Proof. intros Hc Hxy. apply py_float_mono. by apply Qmult_le_compat_r. Qed.

Lemma round2_mono (x y : Qc) : (x ≤ y)%Qc → (round2 x ≤ round2 y)%Qc.
Proof.
  intros Hxy. apply py_float_mono.
  apply Qmult_le_compat_r; [|done].
  rewrite <- Zle_Qle. apply round_half_even_mono.
  by apply Qmult_le_compat_r.
Qed.

Lemma calculate_fuzzy_mono (q1 q2 : Qc) :
  (q1 ≤ q2)%Qc → (calculate "fuzzy" q1 ≤ calculate "fuzzy" q2)%Qc.
Proof.
  intros Hq. unfold calculate. simpl.
  apply round2_mono, fmul_mono; [by vm_compute|].
  apply fdiv_mono; [by vm_compute|done].
Qed.

(** ** The confidence model *)

Lemma calculate_regex (q : Qc) : calculate "regex" q = py_float 0.95.
Proof. reflexivity. Qed.

Lemma calculate_fuzzy (q : Qc) :
  calculate "fuzzy" q = round2 (fmul (fdiv q (py_float 100)) (py_float 0.85)).
Proof. reflexivity. Qed.

Lemma calculate_other (m : string) (q : Qc) :
  m ≠ "regex" → m ≠ "fuzzy" → calculate m q = py_float 0.
Proof. intros H1 H2. unfold calculate. by rewrite !decide_False. Qed.

(** [round(x, 2)] is the float of a number of hundredths that lies within
    half a hundredth of [x]. *)
Lemma round2_nearest (x : Qc) :
  ∃ n : Z, round2 x = py_float (inject_Z n / 100)
    ∧ (x * 100 - (1 # 2) <= inject_Z n <= x * 100 + (1 # 2))%Q.
Proof.
  exists (round_half_even (x * 100)%Q). split; [done|].
  apply round_half_even_near.
Qed.

Lemma calculate_fuzzy_100 : calculate "fuzzy" (py_float 100) = py_float 0.85.
Proof. apply Qc_is_canon. by vm_compute. Qed.

Lemma calculate_fuzzy_0 : calculate "fuzzy" (py_float 0) = py_float 0.
Proof. apply Qc_is_canon. by vm_compute. Qed.

Lemma calculate_fuzzy_85 : calculate "fuzzy" THRESHOLD = py_float 0.72.
Proof. apply Qc_is_canon. by vm_compute. Qed.

Lemma calculate_fuzzy_90 : calculate "fuzzy" (py_float 90) = py_float 0.77.
Proof. apply Qc_is_canon. by vm_compute. Qed.

(** C2. [calculate("regex", q)] is 0.95 for every [q];
    [calculate("fuzzy", q)] is [round(q / 100.0 * 0.85, 2)], a float of
    hundredths within half a hundredth of the product, which is 0.85 at 100,
    0.0 at 0 and does not decrease when [q] grows; for every other method the
    score is 0.0. Being a function of its two arguments, the score depends on
    nothing else. *)
Theorem calculate_confidence_model :
  (∀ q, calculate "regex" q = py_float 0.95)
  ∧ (∀ q, calculate "fuzzy" q
          = round2 (fmul (fdiv q (py_float 100)) (py_float 0.85)))
  ∧ (∀ q, ∃ n : Z,
        calculate "fuzzy" q = py_float (inject_Z n / 100)
        ∧ let x := fmul (fdiv q (py_float 100)) (py_float 0.85) in
          (x * 100 - (1 # 2) <= inject_Z n <= x * 100 + (1 # 2))%Q)
  ∧ calculate "fuzzy" (py_float 100) = py_float 0.85
  ∧ calculate "fuzzy" (py_float 0) = py_float 0
  ∧ (∀ q1 q2, q1 ≤ q2 → calculate "fuzzy" q1 ≤ calculate "fuzzy" q2)
  ∧ (∀ m q, m ≠ "regex" → m ≠ "fuzzy" → calculate m q = py_float 0).
Proof.
  split_and!.
  - apply calculate_regex.
  - apply calculate_fuzzy.
  - intros q. rewrite calculate_fuzzy. apply round2_nearest.
  - apply calculate_fuzzy_100.
  - apply calculate_fuzzy_0.
  - apply calculate_fuzzy_mono.
  - apply calculate_other.
Qed.

Lemma calculate_confidence_model_witness :
  calculate "fuzzy" (py_float 90) ≤ calculate "fuzzy" (py_float 100)
  ∧ calculate "none" (py_float 90) = py_float 0.
Proof.
  destruct calculate_confidence_model as (_ & _ & _ & _ & _ & Hmono & Hother).
  split.
  - apply Hmono. by vm_compute.
  - by apply Hother.
Defined.

(** ** The approximate line matcher *)

Section FuzzySearch.
Context `{PyLib}.

Lemma strip_nil : strip [] = [].
Proof. reflexivity. Qed.

Lemma truthy_strip (s : str) : truthy (strip s) = true → truthy s = true.
Proof. destruct s; [by rewrite strip_nil|done]. Qed.

Lemma valid_values_truthy (numbers : list str) (v : str) :
  v ∈ valid_values numbers → truthy v = true ∧ existsb isdigit v = true.
Proof.
  unfold valid_values. rewrite list_elem_of_In, filter_In, andb_true_iff.
  intros (_ & Hs & Hd). split; [by apply truthy_strip|done].
Qed.

(** An accepted pair has a positive confidence: it always beats the initial
    [best_score = 0]. *)
Lemma calculate_fuzzy_accepted (score : Qc) :
  THRESHOLD ≤ score → py_float 0.72 ≤ calculate "fuzzy" score.
Proof.
  intros Hs. rewrite <- calculate_fuzzy_85. by apply calculate_fuzzy_mono.
Qed.

Lemma calculate_fuzzy_pos (score : Qc) :
  THRESHOLD ≤ score → Q2Qc 0 < calculate "fuzzy" score.
Proof.
  intros Hs. eapply Qclt_le_trans; [|by apply calculate_fuzzy_accepted].
  by vm_compute.
Qed.

Lemma pair_candidate_Some (line keyword : str) (c : Candidate) :
  pair_candidate line keyword = Some c →
  let score := partial_ratio (str_lower keyword) (str_lower line) in
  THRESHOLD ≤ score
  ∧ last (valid_values (findall_numbers line)) = Some (cand_value c)
  ∧ cand_confidence c = calculate "fuzzy" score
  ∧ cand_score c = score.
Proof.
  unfold pair_candidate. case_decide as Hs; [|done].
  destruct (last _) as [v|] eqn:Hlast; [|done].
  simpl. by intros [= <-].
Qed.

(** One turn of the inner loop is one arbitration step on what the pair
    offers. *)
Lemma keyword_step_arbitrate (line keyword : str) (best : option Candidate) :
  keyword_step line (best_of best) keyword
  = best_of (from_option (arbitrate_step best) best (pair_candidate line keyword)).
Proof.
  unfold keyword_step, pair_candidate.
  case_decide as Hs; [|done].
  destruct (last _) as [v|]; [|done].
  destruct best as [b|];
    cbn [best_of best_score initial_best from_option mbind option_bind arbitrate_step
         cand_confidence].
  - by case_decide.
  - by rewrite decide_True by by apply calculate_fuzzy_pos.
Qed.

Lemma foldl_keyword_step (line : str) (keywords : list str) (best : option Candidate) :
  foldl (keyword_step line) (best_of best) keywords
  = best_of (foldl arbitrate_step best (omap (pair_candidate line) keywords)).
Proof.
  revert best. induction keywords as [|k ks IH]; intros best; [done|].
  simpl. rewrite keyword_step_arbitrate.
  destruct (pair_candidate line k) as [c|]; simpl; apply IH.
Qed.

Lemma candidates_cons (line : str) (lines keywords : list str) :
  candidates (line :: lines) keywords
  = (if truthy (strip line) then omap (pair_candidate line) keywords else [])
      ++ candidates lines keywords.
Proof. unfold candidates. simpl. by destruct (truthy _). Qed.

Lemma foldl_line_step (lines keywords : list str) (best : option Candidate) :
  foldl (line_step keywords) (best_of best) lines
  = best_of (foldl arbitrate_step best (candidates lines keywords)).
Proof.
  revert best. induction lines as [|l ls IH]; intros best; [done|].
  rewrite candidates_cons, foldl_app. simpl. unfold line_step at 2.
  destruct (truthy (strip l)); [|apply IH].
  rewrite foldl_keyword_step. apply IH.
Qed.

Lemma elem_of_candidates (lines keywords : list str) (c : Candidate) :
  c ∈ candidates lines keywords ↔
  ∃ line keyword, line ∈ lines ∧ truthy (strip line) = true
    ∧ keyword ∈ keywords ∧ pair_candidate line keyword = Some c.
Proof.
  unfold candidates. rewrite list_elem_of_bind. split.
  - intros (line & Hc & Hl). apply list_elem_of_In, filter_In in Hl as [Hl Hs].
    apply list_elem_of_omap in Hc as (k & Hk & Hc).
    exists line, k. by rewrite list_elem_of_In.
  - intros (line & k & Hl & Hs & Hk & Hc). exists line. split.
    + apply list_elem_of_omap. eauto.
    + apply list_elem_of_In, filter_In. by rewrite <- list_elem_of_In.
Qed.

Lemma candidates_truthy (lines keywords : list str) (c : Candidate) :
  c ∈ candidates lines keywords → truthy (cand_value c) = true.
Proof.
  intros Hc. apply elem_of_candidates in Hc as (line & k & _ & _ & _ & Hc).
  apply pair_candidate_Some in Hc as (_ & Hlast & _).
  apply last_Some_elem_of in Hlast.
  by apply valid_values_truthy in Hlast as [Ht _].
Qed.

(** The arbitration keeps the first candidate of greatest confidence. *)
Lemma arbitrate_snoc (cs : list Candidate) (c : Candidate) :
  arbitrate (cs ++ [c]) = arbitrate_step (arbitrate cs) c.
Proof. unfold arbitrate. by rewrite foldl_app. Qed.

Lemma arbitrate_None (cs : list Candidate) : arbitrate cs = None ↔ cs = [].
Proof.
  split; [|by intros ->].
  destruct cs as [|c cs _] using rev_ind; [done|].
  rewrite arbitrate_snoc. unfold arbitrate_step.
  destruct (arbitrate cs); [by case_decide|done].
Qed.

Lemma arbitrate_Some (cs : list Candidate) (c : Candidate) :
  arbitrate cs = Some c →
  ∃ pre post, cs = pre ++ c :: post
    ∧ Forall (fun c' => cand_confidence c' < cand_confidence c) pre
    ∧ Forall (fun c' => cand_confidence c' ≤ cand_confidence c) post.
Proof.
  revert c. induction cs as [|x cs IH] using rev_ind; intros c; [done|].
  rewrite arbitrate_snoc. unfold arbitrate_step.
  destruct (arbitrate cs) as [b|] eqn:Hb.
  - destruct (IH b eq_refl) as (pre & post & -> & Hpre & Hpost).
    case_decide as Hlt; intros [= <-].
    + exists (pre ++ b :: post), []. split_and!; [done| |done].
      rewrite Forall_app, Forall_cons. split_and!; [|done|].
      * eapply Forall_impl; [done|]. intros c' Hc'.
        by apply (Qclt_trans _ (cand_confidence b)).
      * eapply Forall_impl; [done|]. intros c' Hc'.
        by apply (Qcle_lt_trans _ (cand_confidence b)).
    + exists pre, (post ++ [x]). split_and!; [by rewrite <- app_assoc|done|].
      rewrite Forall_app, Forall_singleton. split; [done|].
      by apply Qcnot_lt_le.
  - apply arbitrate_None in Hb as ->. intros [= <-].
    by exists [], [].
Qed.

(** The loop of [_fuzzy_search] is the arbitration over the candidates. *)
Lemma fuzzy_search_arbitrate (lines keywords : list str) :
  _fuzzy_search lines keywords
  = result_of <$> arbitrate (candidates lines keywords).
Proof.
  unfold _fuzzy_search. change initial_best with (best_of None).
  rewrite foldl_line_step. fold (arbitrate (candidates lines keywords)).
  destruct (arbitrate _) as [c|] eqn:Hc; [|done]. simpl.
  apply arbitrate_Some in Hc as (pre & post & Hcs & _).
  rewrite (candidates_truthy lines keywords c); [done|].
  rewrite Hcs. set_solver.
Qed.

Lemma fuzzy_search_Some (lines keywords : list str) (r : ExtractionResult) :
  _fuzzy_search lines keywords = Some r →
  ∃ pre c post, candidates lines keywords = pre ++ c :: post
    ∧ r = result_of c
    ∧ Forall (fun c' => cand_confidence c' < cand_confidence c) pre
    ∧ Forall (fun c' => cand_confidence c' ≤ cand_confidence c) post.
Proof.
  rewrite fuzzy_search_arbitrate.
  destruct (arbitrate _) as [c|] eqn:Hc; [|done]. intros [= <-].
  apply arbitrate_Some in Hc as (pre & post & ? & ? & ?). by exists pre, c, post.
Qed.

Lemma fuzzy_search_None (lines keywords : list str) :
  _fuzzy_search lines keywords = None ↔ candidates lines keywords = [].
Proof.
  rewrite fuzzy_search_arbitrate, <- arbitrate_None.
  by destruct (arbitrate _).
Qed.

(** Where a result of the matcher comes from. *)
Lemma fuzzy_search_provenance (lines keywords : list str) (r : ExtractionResult) :
  _fuzzy_search lines keywords = Some r →
  ∃ line keyword c, line ∈ lines ∧ truthy (strip line) = true
    ∧ keyword ∈ keywords ∧ pair_candidate line keyword = Some c
    ∧ r = result_of c.
Proof.
  intros Hr. apply fuzzy_search_Some in Hr as (pre & c & post & Hcs & -> & _).
  assert (c ∈ candidates lines keywords) as Hc by (rewrite Hcs; set_solver).
  apply elem_of_candidates in Hc as (line & k & ? & ? & ? & ?).
  by exists line, k, c.
Qed.

End FuzzySearch.

(** ** The number pattern *)

Section NumberPattern.
Context `{PyLib}.

Lemma take_while_Forall (p : char → bool) (s : str) :
  Forall (fun c => p c = true) (take_while p s).
Proof.
  induction s as [|c s IH]; simpl; [done|].
  destruct (p c) eqn:Hp; [by constructor|done].
Qed.

Lemma take_while_drop (p : char → bool) (s : str) :
  take_while p s ++ drop (length (take_while p s)) s = s.
Proof.
  induction s as [|c s IH]; simpl; [done|].
  destruct (p c); simpl; [by rewrite IH|done].
Qed.

Lemma strip_prefix_Some (prefix s rest : str) :
  strip_prefix prefix s = Some rest → s = prefix ++ rest.
Proof.
  revert s. induction prefix as [|p prefix IH]; intros s; simpl.
  - by intros [= ->].
  - destruct s as [|c s]; [done|]. case_decide as Hpc; [|done].
    intros Hr. apply IH in Hr. by subst.
Qed.

Lemma match_number_Some (s token rest : str) :
  match_number s = Some (token, rest) → number_token token ∧ s = token ++ rest.
Proof.
  unfold match_number.
  pose proof (take_while_Forall number_class s) as Hbody.
  pose proof (take_while_drop number_class s) as Hs.
  destruct (take_while number_class s) as [|b body] eqn:Hb; [done|].
  set (s1 := drop (length (b :: body)) s) in *.
  destruct s1 as [|c s1'] eqn:Hs1.
  - simpl. intros [= <- <-]. split; [|by rewrite <- Hs, !app_nil_r].
    exists (b :: body), [], []. by split_and!; auto.
  - case_decide as Hdot.
    + pose proof (take_while_Forall re_digit s1') as Hfrac.
      pose proof (take_while_drop re_digit s1') as Hs1'.
      intros [= <- <-]. split.
      * exists (b :: body), [c], (take_while re_digit s1').
        subst c. by split_and!; auto.
      * rewrite <- Hs at 1. rewrite <- Hs1' at 1.
        simpl. by rewrite <- app_assoc.
    + pose proof (take_while_Forall re_digit (c :: s1')) as Hfrac.
      pose proof (take_while_drop re_digit (c :: s1')) as Hs1'.
      intros [= <- <-]. split.
      * exists (b :: body), [], (take_while re_digit (c :: s1')).
        by split_and!; auto.
      * rewrite <- Hs at 1. rewrite <- Hs1' at 1.
        simpl. by rewrite <- app_assoc.
Qed.

Lemma opt_currency_suffix (s s' : str) :
  s' ∈ opt_currency s → ∃ pre, s = pre ++ s'.
Proof.
  unfold opt_currency.
  destruct (strip_prefix RS_MARK s) as [r|] eqn:Hrs.
  - apply strip_prefix_Some in Hrs.
    intros [->| ->%list_elem_of_singleton]%elem_of_cons; [by eexists|by exists []].
  - destruct (strip_prefix CURRENCY_MARK s) as [r|] eqn:Hcm.
    + apply strip_prefix_Some in Hcm.
      intros [->| ->%list_elem_of_singleton]%elem_of_cons; [by eexists|by exists []].
    + intros ->%list_elem_of_singleton. by exists [].
Qed.

Lemma opt_space_suffix (s s' : str) :
  s' ∈ opt_space s → ∃ pre, s = pre ++ s'.
Proof.
  unfold opt_space. destruct s as [|c s].
  - intros ->%list_elem_of_singleton. by exists [].
  - destruct (isspace c).
    + intros [->| ->%list_elem_of_singleton]%elem_of_cons; [by exists [c]|by exists []].
    + intros ->%list_elem_of_singleton. by exists [].
Qed.

Lemma match_here_Some (s token rest : str) :
  match_here s = Some (token, rest) →
  number_token token ∧ ∃ pre, s = pre ++ token ++ rest.
Proof.
  unfold match_here. intros Hh.
  assert ((token, rest) ∈ omap match_number (opt_currency s ≫= opt_space)) as Hin.
  { destruct (omap _ _) as [|x xs]; [done|]. simpl in Hh.
    injection Hh as ->. by left. }
  apply list_elem_of_omap in Hin as (s2 & Hs2 & Hm).
  apply list_elem_of_bind in Hs2 as (s1 & Hs2 & Hs1).
  apply opt_currency_suffix in Hs1 as [pre1 ->].
  apply opt_space_suffix in Hs2 as [pre2 ->].
  apply match_number_Some in Hm as [Htok ->].
  split; [done|]. exists (pre1 ++ pre2). by rewrite <- app_assoc.
Qed.

Lemma findall_from_tokens (s : str) (skip : nat) (token : str) :
  token ∈ findall_from skip s →
  number_token token ∧ ∃ pre post, s = pre ++ token ++ post.
Proof.
  revert skip. induction s as [|c s IH]; intros skip; simpl; [by intros ?%elem_of_nil|].
  assert (∀ k, token ∈ findall_from k s →
    number_token token ∧ ∃ pre post, c :: s = pre ++ token ++ post) as IH'.
  { intros k Hk. destruct (IH k Hk) as (Htok & pre & post & ->).
    split; [done|]. by exists (c :: pre), post. }
  destruct skip as [|k]; [|by apply IH'].
  destruct (match_here (c :: s)) as [[tok rest]|] eqn:Hm; [|by apply IH'].
  intros [->|Hin]%elem_of_cons; [|by eapply IH'].
  apply match_here_Some in Hm as (Htok & pre & Hs).
  split; [done|]. by exists pre, rest.
Qed.

(** Every capture of [findall_numbers] has the shape of the group and is a
    piece of the line. *)
Lemma findall_numbers_tokens (line token : str) :
  token ∈ findall_numbers line →
  number_token token ∧ ∃ pre post, line = pre ++ token ++ post.
Proof. apply findall_from_tokens. Qed.

Lemma elem_of_valid_values (numbers : list str) (n : str) :
  n ∈ valid_values numbers ↔
  n ∈ numbers ∧ truthy (strip n) = true ∧ existsb isdigit n = true.
Proof.
  unfold valid_values.
  by rewrite !list_elem_of_In, filter_In, andb_true_iff.
Qed.

End NumberPattern.

(** ** The extraction engine *)

Section Extract.
Context `{PyLib}.

Lemma extract_field_fallback (text : str) (lines : list str) (config : FieldSpec) :
  extract_field text lines config
  = with_fallback lines config <$> regex_stage text config.
Proof.
  unfold extract_field, with_fallback.
  destruct (regex_stage text config) as [e|d]; simpl; [done|].
  destruct (value_truthy _); [done|]. by destruct (_fuzzy_search _ _).
Qed.

Lemma regex_stage_no_match (text : str) (config : FieldSpec) :
  re_search (regex config) text = None →
  regex_stage text config = inr default_result.
Proof. unfold regex_stage. by intros ->. Qed.

Lemma regex_stage_capture (text : str) (config : FieldSpec)
    (groups : list (option str)) (g : str) :
  re_search (regex config) text = Some groups →
  last groups = Some (Some g) →
  regex_stage text config = inr (regex_result g).
Proof. unfold regex_stage. by intros -> ->. Qed.

Lemma regex_stage_no_group (text : str) (config : FieldSpec)
    (groups : list (option str)) :
  re_search (regex config) text = Some groups →
  last groups = None →
  regex_stage text config = inl IndexError.
Proof. unfold regex_stage. by intros -> ->. Qed.

Lemma regex_stage_unset_group (text : str) (config : FieldSpec)
    (groups : list (option str)) :
  re_search (regex config) text = Some groups →
  last groups = Some None →
  regex_stage text config = inl AttributeError.
Proof. unfold regex_stage. by intros -> ->. Qed.

Lemma extract_field_inr_iff (text : str) (lines : list str) (config : FieldSpec) :
  (∃ d, extract_field text lines config = inr d) ↔ capture_ok text config.
Proof.
  rewrite extract_field_fallback. unfold capture_ok, regex_stage.
  destruct (re_search _ _) as [groups|]; [|by split; eauto].
  destruct (last groups) as [[g|]|]; simpl.
  - split; eauto.
  - split; [by intros [? ?]|by intros [? ?]].
  - split; [by intros [? ?]|by intros [? ?]].
Qed.

(** What an entry can be, by its method. *)
Lemma extract_field_method (text : str) (lines : list str) (config : FieldSpec)
    (d : ExtractionResult) :
  extract_field text lines config = inr d →
  match method d with
  | MethodNone => d = default_result
  | MethodRegex => confidence d = py_float 0.95
  | MethodFuzzy _ => _fuzzy_search lines (keywords config) = Some d
  end.
Proof.
  rewrite extract_field_fallback. unfold regex_stage, with_fallback.
  destruct (re_search _ _) as [groups|]; [destruct (last groups) as [[g|]|]|];
    simpl; try done.
  - destruct (truthy (strip g)); [by intros [= <-]|].
    destruct (_fuzzy_search _ _) as [r|] eqn:Hr; simpl; intros [= <-]; [|done].
    apply fuzzy_search_Some in Hr as Hr'.
    by destruct Hr' as (? & c & ? & _ & -> & _).
  - destruct (_fuzzy_search _ _) as [r|] eqn:Hr; simpl; intros [= <-]; [|done].
    apply fuzzy_search_Some in Hr as Hr'.
    by destruct Hr' as (? & c & ? & _ & -> & _).
Qed.

(** *** The loop over the registry *)

Lemma extract_items_inr (text : str) (lines : list str)
    (items : list (str * FieldSpec)) (results results' : gmap str ExtractionResult) :
  NoDup items.*1 →
  extract_items text lines items results = inr results' →
  (∀ name config, (name, config) ∈ items →
     ∃ d, extract_field text lines config = inr d ∧ results' !! name = Some d)
  ∧ (∀ name, name ∉ items.*1 → results' !! name = results !! name).
Proof.
  revert results. induction items as [|[n cfg] items IH]; intros results; simpl.
  - intros _ [= <-]. split; [by intros ?? ?%elem_of_nil|done].
  - rewrite NoDup_cons. intros [Hn Hnd].
    destruct (extract_field text lines cfg) as [e|d] eqn:Hd; simpl; [done|].
    intros Hrest. destruct (IH _ Hnd Hrest) as [Hin Hout]. split.
    + intros name config [[= -> ->]|Hi]%elem_of_cons; [|by apply Hin].
      exists d. split; [done|]. by rewrite Hout, lookup_insert_eq.
    + intros name [Hne Hni]%not_elem_of_cons.
      by rewrite Hout, lookup_insert_ne.
Qed.

Lemma extract_items_inl (text : str) (lines : list str)
    (items : list (str * FieldSpec)) (results : gmap str ExtractionResult)
    (name : str) (config : FieldSpec) (e : PyError) :
  (name, config) ∈ items →
  extract_field text lines config = inl e →
  ∃ e', extract_items text lines items results = inl e'.
Proof.
  revert results. induction items as [|[n cfg] items IH]; intros results; simpl.
  - by intros ?%elem_of_nil.
  - intros [[= <- <-]|Hi]%elem_of_cons He.
    + rewrite He. by eexists.
    + destruct (extract_field text lines cfg) as [e0|d]; simpl; [by eexists|].
      by apply IH.
Qed.

Lemma extract_items_total (text : str) (lines : list str)
    (items : list (str * FieldSpec)) (results : gmap str ExtractionResult) :
  (∀ name config, (name, config) ∈ items → capture_ok text config) →
  ∃ results', extract_items text lines items results = inr results'.
Proof.
  revert results. induction items as [|[n cfg] items IH]; intros results Hok; simpl.
  - by eexists.
  - destruct (proj2 (extract_field_inr_iff text lines cfg)) as [d ->].
    { apply (Hok n). by left. }
    simpl. apply IH. intros name config Hi. apply (Hok name). by right.
Qed.

(** One entry per declared field, each the outcome of the loop body. *)
Lemma extract_inr (patterns : gmap str FieldSpec) (text : str)
    (results : gmap str ExtractionResult) :
  extract patterns text = inr results →
  dom results = dom patterns
  ∧ ∀ name config, patterns !! name = Some config →
      ∃ d, extract_field text (split_lines text) config = inr d
        ∧ results !! name = Some d.
Proof.
  unfold extract. intros Hr.
  apply extract_items_inr in Hr as [Hin Hout]; [|apply NoDup_fst_map_to_list].
  split.
  - apply set_eq. intros name. rewrite !elem_of_dom.
    destruct (patterns !! name) as [config|] eqn:Hp.
    + apply elem_of_map_to_list in Hp. destruct (Hin _ _ Hp) as (d & _ & ->).
      by split; eauto.
    + rewrite Hout, lookup_empty; [done|].
      rewrite list_elem_of_fmap. intros ([n c] & -> & Hnc).
      apply elem_of_map_to_list in Hnc. simpl in Hp. congruence.
  - intros name config Hp. apply Hin. by apply elem_of_map_to_list.
Qed.

(** [extract] returns a mapping exactly when the capture of every field is
    usable. *)
Lemma extract_returns (patterns : gmap str FieldSpec) (text : str) :
  (∃ results, extract patterns text = inr results)
  ↔ ∀ name config, patterns !! name = Some config → capture_ok text config.
Proof.
  split.
  - intros [results Hr] name config Hp.
    apply extract_inr in Hr as [_ Hin]. destruct (Hin _ _ Hp) as (d & Hd & _).
    apply (proj1 (extract_field_inr_iff text (split_lines text) config)). eauto.
  - intros Hok. apply extract_items_total.
    intros name config Hp. apply (Hok name). by apply elem_of_map_to_list.
Qed.

Lemma extract_raises (patterns : gmap str FieldSpec) (text : str)
    (name : str) (config : FieldSpec) (e : PyError) :
  patterns !! name = Some config →
  extract_field text (split_lines text) config = inl e →
  ∃ e', extract patterns text = inl e'.
Proof.
  intros Hp He. eapply extract_items_inl; [|done].
  by apply elem_of_map_to_list.
Qed.

End Extract.

(** * The claims of the specification *)

Section Claims.
Context `{PyLib}.

Lemma extract_entry (patterns : gmap str FieldSpec) (text : str)
    (results : gmap str ExtractionResult) (name : str) (d : ExtractionResult) :
  extract patterns text = inr results →
  results !! name = Some d →
  ∃ config, patterns !! name = Some config
    ∧ extract_field text (split_lines text) config = inr d.
Proof.
  intros Hr Hd. apply extract_inr in Hr as [Hdom Hin].
  assert (is_Some (patterns !! name)) as [config Hp].
  { apply elem_of_dom. rewrite <- Hdom. by apply elem_of_dom. }
  destruct (Hin _ _ Hp) as (d' & Hf & Hd').
  exists config. split; [done|]. congruence.
Qed.

Lemma extract_field_no_match (text : str) (lines : list str) (config : FieldSpec) :
  re_search (regex config) text = None →
  extract_field text lines config
  = inr (default default_result (_fuzzy_search lines (keywords config))).
Proof.
  intros Hm. by rewrite extract_field_fallback, regex_stage_no_match.
Qed.

Lemma extract_field_empty_capture (text : str) (lines : list str)
    (config : FieldSpec) (groups : list (option str)) (g : str) :
  re_search (regex config) text = Some groups →
  last groups = Some (Some g) →
  strip g = [] →
  extract_field text lines config
  = inr (default (regex_result g) (_fuzzy_search lines (keywords config))).
Proof.
  intros Hm Hg Hs.
  rewrite extract_field_fallback, (regex_stage_capture _ _ _ _ Hm Hg).
  unfold with_fallback. simpl. by rewrite Hs.
Qed.

(** C1. The mapping [extract] returns has exactly the fields of the registry
    as its keys, one entry each, whatever the text; the entry of a field for
    which the pattern does not match and the matcher finds nothing is the
    default: no value, confidence 0.0, method none. *)
Theorem extract_one_entry_per_field (patterns : gmap str FieldSpec) (text : str)
    (results : gmap str ExtractionResult) :
  extract patterns text = inr results →
  dom results = dom patterns
  ∧ size results = size patterns
  ∧ ∀ name config, patterns !! name = Some config →
      ∃ d, results !! name = Some d
        ∧ (re_search (regex config) text = None →
           _fuzzy_search (split_lines text) (keywords config) = None →
           d = default_result).
Proof.
  intros Hr. apply extract_inr in Hr as [Hdom Hin]. split_and!; [done| |].
  - by rewrite <- !size_dom, Hdom.
  - intros name config Hp. destruct (Hin _ _ Hp) as (d & Hd & Hl).
    exists d. split; [done|]. intros Hm Hf.
    rewrite (extract_field_no_match _ _ _ Hm), Hf in Hd. by injection Hd.
Qed.

(** C3, as the code has it. When the pattern of a field does not match and
    the matcher finds no candidate, the entry of the field is the default:
    no value, confidence 0.0, method none. *)
Theorem extract_default_when_nothing_found (patterns : gmap str FieldSpec)
    (text : str) (results : gmap str ExtractionResult)
    (name : str) (config : FieldSpec) :
  extract patterns text = inr results →
  patterns !! name = Some config →
  re_search (regex config) text = None →
  _fuzzy_search (split_lines text) (keywords config) = None →
  results !! name = Some default_result.
Proof.
  intros Hr Hp Hm Hf. apply extract_inr in Hr as [_ Hin].
  destruct (Hin _ _ Hp) as (d & Hd & ->).
  rewrite (extract_field_no_match _ _ _ Hm), Hf in Hd. by injection Hd as <-.
Qed.

Lemma candidates_confidence (lines keywords : list str) (c : Candidate) :
  c ∈ candidates lines keywords →
  cand_confidence c = calculate "fuzzy" (cand_score c).
Proof.
  intros Hc. apply elem_of_candidates in Hc as (line & k & _ & _ & _ & Hc).
  apply pair_candidate_Some in Hc as (_ & _ & -> & ->). done.
Qed.

(** C4. The matcher arbitrates once over all (line, keyword) pairs: the
    candidate it returns has a confidence strictly greater than that of every
    candidate met before it and at least that of every candidate met after
    it, so that of equal candidates the first is kept. When the candidates
    are two, of similarity 90 and 100, in either order, the one of similarity
    100 is returned. *)
Theorem fuzzy_search_global_arbitration (lines keywords : list str)
    (r : ExtractionResult) :
  _fuzzy_search lines keywords = Some r →
  (∃ pre c post, candidates lines keywords = pre ++ c :: post
     ∧ r = result_of c
     ∧ Forall (fun c' => cand_confidence c' < cand_confidence c) pre
     ∧ Forall (fun c' => cand_confidence c' ≤ cand_confidence c) post)
  ∧ (∀ c90 c100,
       cand_score c90 = py_float 90 →
       cand_score c100 = py_float 100 →
       candidates lines keywords = [c90; c100]
       ∨ candidates lines keywords = [c100; c90] →
       r = result_of c100).
Proof.
  intros Hr. apply fuzzy_search_Some in Hr as Hs. split; [done|].
  intros c90 c100 H90 H100 Hcs.
  destruct Hs as (pre & c & post & Hsplit & -> & Hpre & Hpost).
  assert (cand_confidence c90 < cand_confidence c100) as Hlt.
  { rewrite (candidates_confidence lines keywords c90),
      (candidates_confidence lines keywords c100), H90, H100
      by (destruct Hcs as [-> | ->]; set_solver).
    rewrite calculate_fuzzy_90, calculate_fuzzy_100. by vm_compute. }
  assert (∀ x, ¬ (x < x)) as Hirr by (intros x Hx; by apply Qclt_not_eq in Hx).
  destruct Hcs as [Hcs|Hcs]; rewrite Hcs in Hsplit;
    destruct pre as [|p1 [|p2 [|p3 pre]]]; simplify_eq/=; try done.
  - apply Forall_cons in Hpost as [Hle _].
    by apply Qcle_not_lt in Hle.
  - apply Forall_cons in Hpre as [Hlt' _].
    destruct (Hirr (cand_confidence c)). by etrans.
Qed.

(** C5. The matcher never returns a candidate of similarity below 85: what it
    returns is offered by a line that is not blank and a keyword of the list
    whose similarity, the one recorded in the method, is at least 85. A pair
    below the threshold leaves the best candidate as it is, and so does a
    line that is empty or only white space. *)
Theorem fuzzy_search_threshold (lines keywords : list str) (r : ExtractionResult) :
  _fuzzy_search lines keywords = Some r →
  (∃ line keyword,
      line ∈ lines ∧ keyword ∈ keywords ∧ truthy (strip line) = true
      ∧ method r = MethodFuzzy (partial_ratio (str_lower keyword) (str_lower line))
      ∧ THRESHOLD ≤ partial_ratio (str_lower keyword) (str_lower line))
  ∧ (∀ b line keyword,
       partial_ratio (str_lower keyword) (str_lower line) < THRESHOLD →
       keyword_step line b keyword = b)
  ∧ (∀ b line, strip line = [] → line_step keywords b line = b).
Proof.
  intros Hr. split_and!.
  - apply fuzzy_search_provenance in Hr
      as (line & k & c & Hl & Hs & Hk & Hc & ->).
    apply pair_candidate_Some in Hc as (Hth & _ & _ & Hsc).
    exists line, k. simpl. by rewrite Hsc.
  - intros b line k Hlt. unfold keyword_step.
    rewrite decide_False; [done|]. by apply Qclt_not_le.
  - intros b line Hs. unfold line_step. by rewrite Hs.
Qed.

(** C6. What the matcher returns is the last numeric token of the line of an
    accepted pair: the last of the captures of the number pattern on that
    line that contain a digit. Such a token is made of digits and commas, at
    most one dot and then digits, and is a piece of the line, so that a
    currency marker before it is left out. An accepted pair whose line has no
    such token leaves the best candidate as it is, and a pair that changes
    the best candidate sets it to the last numeric token of its line. *)
Theorem fuzzy_search_last_numeric_token (lines keywords : list str)
    (r : ExtractionResult) :
  _fuzzy_search lines keywords = Some r →
  (∃ line keyword v,
      line ∈ lines ∧ keyword ∈ keywords
      ∧ THRESHOLD ≤ partial_ratio (str_lower keyword) (str_lower line)
      ∧ last (valid_values (findall_numbers line)) = Some v
      ∧ value r = Some v
      ∧ number_token v
      ∧ existsb isdigit v = true
      ∧ ∃ pre post, line = pre ++ v ++ post)
  ∧ (∀ b line keyword,
       valid_values (findall_numbers line) = [] →
       keyword_step line b keyword = b)
  ∧ (∀ b line keyword,
       keyword_step line b keyword = b
       ∨ best_candidate (keyword_step line b keyword)
         = last (valid_values (findall_numbers line))).
Proof.
  intros Hr. split_and!.
  - apply fuzzy_search_provenance in Hr
      as (line & k & c & Hl & Hs & Hk & Hc & ->).
    apply pair_candidate_Some in Hc as (Hth & Hlast & _ & _).
    exists line, k, (cand_value c).
    apply last_Some_elem_of in Hlast as Hin.
    apply elem_of_valid_values in Hin as (Hin & _ & Hd).
    apply findall_numbers_tokens in Hin as [Htok Hpiece].
    by split_and!.
  - intros b line k Hv. unfold keyword_step. rewrite Hv.
    by case_decide.
  - intros b line k. unfold keyword_step.
    case_decide; [|by left].
    destruct (last _) as [v|]; [|by left].
    case_decide; [by right|by left].
Qed.

(** C7. When the pattern of a field does not match, or matches with a last
    group that is empty once trimmed, the field goes to the matcher with the
    lines of the text and its own keywords, and a candidate the matcher finds
    is the entry of the field. *)
Theorem extract_falls_back_to_fuzzy (patterns : gmap str FieldSpec) (text : str)
    (results : gmap str ExtractionResult) (name : str) (config : FieldSpec)
    (r : ExtractionResult) :
  extract patterns text = inr results →
  patterns !! name = Some config →
  re_search (regex config) text = None
  ∨ (∃ groups g, re_search (regex config) text = Some groups
       ∧ last groups = Some (Some g) ∧ strip g = []) →
  _fuzzy_search (split_lines text) (keywords config) = Some r →
  results !! name = Some r.
Proof.
  intros Hr Hp Hm Hf. apply extract_inr in Hr as [_ Hin].
  destruct (Hin _ _ Hp) as (d & Hd & ->).
  destruct Hm as [Hm|(groups & g & Hm & Hg & Hs)].
  - rewrite (extract_field_no_match _ _ _ Hm), Hf in Hd. by injection Hd as <-.
  - rewrite (extract_field_empty_capture _ _ _ _ _ Hm Hg Hs), Hf in Hd.
    by injection Hd as <-.
Qed.

(** C8, as the code has it. A pattern without a capturing group makes
    [extract] fail, with an index error on the field, when the pattern matches
    the text; when it does not match, the field is processed without an
    error. An empty keyword list raises nothing: the matcher finds no
    candidate. *)
Theorem extract_config_errors (patterns : gmap str FieldSpec) (text : str)
    (name : str) (config : FieldSpec) :
  patterns !! name = Some config →
  (re_search (regex config) text = Some [] →
     extract_field text (split_lines text) config = inl IndexError
     ∧ ∃ e, extract patterns text = inl e)
  ∧ (re_search (regex config) text = None →
     ∃ d, extract_field text (split_lines text) config = inr d)
  ∧ (∀ lines, _fuzzy_search lines [] = None).
Proof.
  intros Hp. split_and!.
  - intros Hm.
    assert (extract_field text (split_lines text) config = inl IndexError) as He.
    { by rewrite extract_field_fallback, (regex_stage_no_group _ _ _ Hm). }
    split; [done|]. by eapply extract_raises.
  - intros Hm. rewrite (extract_field_no_match _ _ _ Hm). by eexists.
  - intros lines. apply fuzzy_search_None. unfold candidates.
    induction (List.filter _ lines) as [|l ls IH]; [done|]. simpl. apply IH.
Qed.

Lemma fuzzy_search_confidence (lines keywords : list str) (r : ExtractionResult) :
  (∀ k l, partial_ratio k l ≤ py_float 100) →
  _fuzzy_search lines keywords = Some r →
  ∃ s, method r = MethodFuzzy s
    ∧ THRESHOLD ≤ s ∧ s ≤ py_float 100
    ∧ confidence r = round2 (fmul (fdiv s (py_float 100)) (py_float 0.85))
    ∧ py_float 0.72 ≤ confidence r ∧ confidence r ≤ py_float 0.85.
Proof.
  intros Hrange Hr.
  apply fuzzy_search_provenance in Hr as (line & k & c & _ & _ & _ & Hc & ->).
  apply pair_candidate_Some in Hc as (Hth & _ & Hconf & Hsc).
  exists (cand_score c). cbn [result_of method confidence].
  rewrite Hconf, Hsc. split_and!.
  - reflexivity.
  - exact Hth.
  - apply Hrange.
  - apply calculate_fuzzy.
  - apply calculate_fuzzy_accepted, Hth.
  - rewrite <- calculate_fuzzy_100. apply calculate_fuzzy_mono, Hrange.
Qed.

(** C9. A result of the matcher has the confidence
    [round(s / 100.0 * 0.85, 2)] for the similarity [s] recorded in its
    method, which lies between 85 and 100, so that the confidence lies
    between 0.72 and 0.85 and below the 0.95 of the regular expression; in
    the mapping [extract] returns, an entry of method regex has a strictly
    greater confidence than every entry of a fuzzy method. *)
Theorem fuzzy_confidence_below_regex (lines keywords : list str)
    (r : ExtractionResult) :
  (∀ k l, partial_ratio k l ≤ py_float 100) →
  _fuzzy_search lines keywords = Some r →
  (∃ s, method r = MethodFuzzy s
     ∧ THRESHOLD ≤ s ∧ s ≤ py_float 100
     ∧ confidence r = round2 (fmul (fdiv s (py_float 100)) (py_float 0.85))
     ∧ py_float 0.72 ≤ confidence r ∧ confidence r ≤ py_float 0.85
     ∧ ∀ q, confidence r < calculate "regex" q)
  ∧ (∀ patterns text results name1 name2 d1 d2 s,
       extract patterns text = inr results →
       results !! name1 = Some d1 → method d1 = MethodRegex →
       results !! name2 = Some d2 → method d2 = MethodFuzzy s →
       confidence d2 < confidence d1).
Proof.
  intros Hrange Hr.
  assert (py_float 0.85 < py_float 0.95) as Hlt by by vm_compute.
  split.
  - destruct (fuzzy_search_confidence _ _ _ Hrange Hr)
      as (s & ? & ? & ? & ? & ? & Hle).
    exists s. split_and!; try assumption.
    intros q. rewrite calculate_regex. eapply Qcle_lt_trans; eassumption.
  - intros patterns text results n1 n2 d1 d2 s He Hd1 Hm1 Hd2 Hm2.
    destruct (extract_entry _ _ _ _ _ He Hd1) as (c1 & _ & Hf1).
    destruct (extract_entry _ _ _ _ _ He Hd2) as (c2 & _ & Hf2).
    apply extract_field_method in Hf1, Hf2. rewrite Hm1 in Hf1. rewrite Hm2 in Hf2.
    destruct (fuzzy_search_confidence _ _ _ Hrange Hf2)
      as (? & _ & _ & _ & _ & _ & Hle).
    rewrite Hf1. eapply Qcle_lt_trans; eassumption.
Qed.

(** C10. [extract] does not always return: when the pattern of a field
    matches and its last group took no part in the match, the field fails
    with an attribute error, the capture [None] being trimmed as if it were a
    string, and [extract] fails with it. *)
Theorem extract_fails_on_unset_group (patterns : gmap str FieldSpec) (text : str)
    (name : str) (config : FieldSpec) (groups : list (option str)) :
  patterns !! name = Some config →
  re_search (regex config) text = Some groups →
  last groups = Some None →
  extract_field text (split_lines text) config = inl AttributeError
  ∧ (∃ e, extract patterns text = inl e)
  ∧ ¬ ∃ results, extract patterns text = inr results.
Proof.
  intros Hp Hm Hg.
  assert (extract_field text (split_lines text) config = inl AttributeError) as He.
  { by rewrite extract_field_fallback, (regex_stage_unset_group _ _ _ Hm Hg). }
  destruct (extract_raises _ _ _ _ _ Hp He) as [e Hx].
  split_and!; [done|by exists e|]. intros [results Hres]. congruence.
Qed.

End Claims.

(** * The claims on the inputs of the examples *)

Section Examples.
Local Existing Instance sample_lib.

(** A registry of one field. *)
Lemma extract_singleton `{PyLib} (name : str) (config : FieldSpec) (text : str) :
  extract {[ name := config ]} text
  = (fun d => {[ name := d ]}) <$> extract_field text (split_lines text) config.
Proof.
  unfold extract. rewrite map_to_list_singleton. simpl.
  destruct (extract_field _ _ _) as [e|d]; simpl; [done|].
  by rewrite insert_empty.
Qed.

Lemma extract_singleton_inr `{PyLib} (name : str) (config : FieldSpec)
    (text : str) (d : ExtractionResult) :
  extract_field text (split_lines text) config = inr d →
  extract {[ name := config ]} text = inr {[ name := d ]}.
Proof. intros Hd. by rewrite extract_singleton, Hd. Qed.

Lemma extract_singleton_inl `{PyLib} (name : str) (config : FieldSpec)
    (text : str) (e : PyError) :
  extract_field text (split_lines text) config = inl e →
  extract {[ name := config ]} text = inl e.
Proof. intros He. by rewrite extract_singleton, He. Qed.

Lemma sample_ratios_range (k l : str) : partial_ratio k l ≤ py_float 100.
Proof.
  simpl. unfold SAMPLE_RATIOS, table_lookup.
  repeat case_decide; by vm_compute.
Qed.

(** The number pattern on the amounts the specification names. *)
Example findall_numbers_thousands :
  findall_numbers PREMIUM_TEXT = [u "25,000.00"].
Proof. by vm_compute. Qed.

Example findall_numbers_rs : findall_numbers (u "Rs. 1200") = [u "1200"].
Proof. by vm_compute. Qed.

(** The rupee sign U+20B9 is not one of the two markers of the pattern; the
    amount after it is captured all the same. *)
Example findall_numbers_rupee :
  findall_numbers (8377%N :: u "500") = [u "500"].
Proof. by vm_compute. Qed.

Example findall_numbers_currency_mark :
  findall_numbers (CURRENCY_MARK ++ u " 500") = [u "500"].
Proof. by vm_compute. Qed.

Example findall_numbers_several :
  findall_numbers (u "Rs. 1200, 12.5.7 ,, a,b 3.x .5 Rs.  7")
  = [u "1200,"; u "12.5"; u "7"; u ",,"; u ","; u "3."; u "5"; u "7"].
Proof. by vm_compute. Qed.

Example valid_values_several :
  valid_values (findall_numbers (u "Rs. 1200, 12.5.7 ,, a,b 3.x .5 Rs.  7"))
  = [u "1200,"; u "12.5"; u "7"; u "3."; u "5"; u "7"].
Proof. by vm_compute. Qed.

Example split_lines_trailing :
  split_lines [97; 10; 98; 10; 10]%N = [[97%N]; [98%N]; []; []].
Proof. reflexivity. Qed.

(** Scenario A: the pattern matches. *)
Example scenario_a :
  extract {[ u "policy_number" := POLICY_NUMBER ]} (u "Policy Number: ABC12345")
  = inr {[ u "policy_number" := regex_result (u "ABC12345") ]}.
Proof. apply extract_singleton_inr. by vm_compute. Qed.

(** Scenario B: no match, the keyword is on the line. *)
Example scenario_b :
  extract {[ u "premium" := PREMIUM ]} PREMIUM_TEXT
  = inr {[ u "premium" := fuzzy_result (u "25,000.00") 0.85 100 ]}.
Proof. apply extract_singleton_inr. by vm_compute. Qed.

(** Scenario C: nothing to find. *)
Example scenario_c :
  extract {[ u "premium" := PREMIUM ]} UNRELATED_TEXT
  = inr {[ u "premium" := default_result ]}.
Proof. apply extract_singleton_inr. by vm_compute. Qed.

(** Scenario E, in both orders of the two lines. *)
Example scenario_e :
  _fuzzy_search SUM_ASSURED_LINES (keywords SUM_ASSURED)
  = Some (fuzzy_result (u "2,000") 0.85 100)
  ∧ _fuzzy_search SUM_ASSURED_LINES_REV (keywords SUM_ASSURED)
    = Some (fuzzy_result (u "2,000") 0.85 100).
Proof. split; by vm_compute. Qed.

Lemma extract_one_entry_per_field_witness :
  let results : gmap str ExtractionResult :=
    {[ u "policy_number" := default_result; u "premium" := default_result ]} in
  dom results = dom SAMPLE_PATTERNS
  ∧ size results = size SAMPLE_PATTERNS
  ∧ ∀ name config, SAMPLE_PATTERNS !! name = Some config →
      ∃ d, results !! name = Some d
        ∧ (re_search (regex config) [] = None →
           _fuzzy_search (split_lines []) (keywords config) = None →
           d = default_result).
Proof.
  apply (extract_one_entry_per_field SAMPLE_PATTERNS []). by vm_compute.
Defined.

(** C3 as the specification states it fails: the pattern matches, its last
    group is empty once trimmed, the matcher finds nothing on a line without
    a number, and the entry is not the default but the empty string with the
    confidence and the method of the regular expression. *)
Lemma empty_capture_entry_not_default :
  re_search (regex PREMIUM_EMPTY_CAPTURE) (u "Premium:")
  = Some [Some (u "Premium"); Some []]
  ∧ strip [] = []
  ∧ _fuzzy_search (split_lines (u "Premium:")) (keywords PREMIUM_EMPTY_CAPTURE) = None
  ∧ extract {[ u "premium" := PREMIUM_EMPTY_CAPTURE ]} (u "Premium:")
    = inr {[ u "premium" :=
               {| value := Some [];
                  confidence := py_float 0.95;
                  method := MethodRegex |} ]}
  ∧ extract {[ u "premium" := PREMIUM_EMPTY_CAPTURE ]} (u "Premium:")
    ≠ inr {[ u "premium" := default_result ]}.
Proof.
  assert (extract {[ u "premium" := PREMIUM_EMPTY_CAPTURE ]} (u "Premium:")
    = inr {[ u "premium" := regex_result [] ]}) as He.
  { apply extract_singleton_inr. by vm_compute. }
  split_and!; [by vm_compute|done|by vm_compute|exact He|].
  rewrite He. intros Heq.
  pose proof (f_equal (fun x : PyError + gmap str ExtractionResult =>
                         match x with
                         | inr m => value <$> m !! u "premium"
                         | inl _ => None
                         end) Heq) as Hl.
  cbv beta iota in Hl. rewrite !lookup_singleton_eq in Hl.
  cbn [fmap option_fmap option_map value regex_result default_result] in Hl.
  discriminate Hl.
Qed.

Lemma extract_default_when_nothing_found_witness :
  ({[ u "premium" := default_result ]} : gmap str ExtractionResult) !! u "premium"
  = Some default_result.
Proof.
  apply (extract_default_when_nothing_found
           {[ u "premium" := PREMIUM ]} UNRELATED_TEXT _ _ PREMIUM).
  - apply scenario_c.
  - apply lookup_singleton_eq.
  - by vm_compute.
  - by vm_compute.
Defined.

Lemma fuzzy_search_global_arbitration_witness :
  fuzzy_result (u "2,000") 0.85 100
  = result_of {| cand_value := u "2,000";
                 cand_confidence := py_float 0.85;
                 cand_score := py_float 100 |}.
Proof.
  refine (proj2 (fuzzy_search_global_arbitration
                   SUM_ASSURED_LINES (keywords SUM_ASSURED) _ _)
            {| cand_value := u "1,000";
               cand_confidence := py_float 0.77;
               cand_score := py_float 90 |} _ _ _ _).
  - by vm_compute.
  - by vm_compute.
  - by vm_compute.
  - left. by vm_compute.
Defined.

Lemma fuzzy_search_threshold_witness :
  ∃ line keyword,
    line ∈ split_lines PREMIUM_TEXT ∧ keyword ∈ keywords PREMIUM
    ∧ truthy (strip line) = true
    ∧ MethodFuzzy (py_float 100)
      = MethodFuzzy (partial_ratio (str_lower keyword) (str_lower line))
    ∧ THRESHOLD ≤ partial_ratio (str_lower keyword) (str_lower line).
Proof.
  refine (proj1 (fuzzy_search_threshold (split_lines PREMIUM_TEXT)
                   (keywords PREMIUM) (fuzzy_result (u "25,000.00") 0.85 100) _)).
  by vm_compute.
Defined.

Lemma fuzzy_search_last_numeric_token_witness :
  ∃ line keyword v,
    line ∈ split_lines PREMIUM_TEXT ∧ keyword ∈ keywords PREMIUM
    ∧ THRESHOLD ≤ partial_ratio (str_lower keyword) (str_lower line)
    ∧ last (valid_values (findall_numbers line)) = Some v
    ∧ Some (u "25,000.00") = Some v
    ∧ number_token v
    ∧ existsb isdigit v = true
    ∧ ∃ pre post, line = pre ++ v ++ post.
Proof.
  refine (proj1 (fuzzy_search_last_numeric_token (split_lines PREMIUM_TEXT)
                   (keywords PREMIUM) (fuzzy_result (u "25,000.00") 0.85 100) _)).
  by vm_compute.
Defined.

Lemma extract_falls_back_to_fuzzy_witness :
  ({[ u "premium" := fuzzy_result (u "25,000.00") 0.85 100 ]}
     : gmap str ExtractionResult) !! u "premium"
  = Some (fuzzy_result (u "25,000.00") 0.85 100).
Proof.
  apply (extract_falls_back_to_fuzzy
           {[ u "premium" := PREMIUM ]} PREMIUM_TEXT _ _ PREMIUM).
  - apply scenario_b.
  - apply lookup_singleton_eq.
  - left. by vm_compute.
  - by vm_compute.
Defined.

(** C8 as the specification states it fails: the pattern has no group (a
    match has the empty tuple of groups), the keyword list is empty, the
    pattern does not match the text, and [extract] returns the default entry
    instead of raising. *)
Lemma broken_config_no_error :
  re_search (regex POLICY_NUMBER_BROKEN) (u "Policy Number: 12345") = Some []
  ∧ keywords POLICY_NUMBER_BROKEN = []
  ∧ re_search (regex POLICY_NUMBER_BROKEN) UNRELATED_TEXT = None
  ∧ extract {[ u "policy_number" := POLICY_NUMBER_BROKEN ]} UNRELATED_TEXT
    = inr {[ u "policy_number" := default_result ]}.
Proof.
  split_and!; [by vm_compute|done|by vm_compute|].
  apply extract_singleton_inr. by vm_compute.
Qed.

Lemma extract_config_errors_witness :
  extract_field (u "Policy Number: 12345") (split_lines (u "Policy Number: 12345"))
    POLICY_NUMBER_BROKEN = inl IndexError
  ∧ ∃ e, extract {[ u "policy_number" := POLICY_NUMBER_BROKEN ]}
           (u "Policy Number: 12345") = inl e.
Proof.
  refine (proj1 (extract_config_errors {[ u "policy_number" := POLICY_NUMBER_BROKEN ]}
                   (u "Policy Number: 12345") (u "policy_number")
                   POLICY_NUMBER_BROKEN _) _).
  - apply lookup_singleton_eq.
  - by vm_compute.
Defined.

Lemma fuzzy_confidence_below_regex_witness :
  ∃ s, MethodFuzzy (py_float 100) = MethodFuzzy s
    ∧ THRESHOLD ≤ s ∧ s ≤ py_float 100
    ∧ py_float 0.85 = round2 (fmul (fdiv s (py_float 100)) (py_float 0.85))
    ∧ py_float 0.72 ≤ py_float 0.85 ∧ py_float 0.85 ≤ py_float 0.85
    ∧ ∀ q, py_float 0.85 < calculate "regex" q.
Proof.
  refine (proj1 (fuzzy_confidence_below_regex (split_lines PREMIUM_TEXT)
                   (keywords PREMIUM) (fuzzy_result (u "25,000.00") 0.85 100) _ _)).
  - apply sample_ratios_range.
  - by vm_compute.
Defined.

Lemma extract_fails_on_unset_group_witness :
  extract_field (u "Premium due") (split_lines (u "Premium due"))
    PREMIUM_OPTIONAL_GROUP = inl AttributeError
  ∧ (∃ e, extract {[ u "premium" := PREMIUM_OPTIONAL_GROUP ]} (u "Premium due")
          = inl e)
  ∧ ¬ ∃ results, extract {[ u "premium" := PREMIUM_OPTIONAL_GROUP ]}
                   (u "Premium due") = inr results.
Proof.
  apply (extract_fails_on_unset_group {[ u "premium" := PREMIUM_OPTIONAL_GROUP ]}
           (u "Premium due") (u "premium") PREMIUM_OPTIONAL_GROUP
           [Some (u "Premium"); None]).
  - apply lookup_singleton_eq.
  - by vm_compute.
  - reflexivity.
Defined.

End Examples.

(** * More of the code *)

(** ** Lines and trimming *)

Section Strings.
Context `{PyLib}.

Lemma split_lines_nonempty (text : str) : split_lines text ≠ [].
Proof.
  destruct text as [|c rest]; simpl; [done|].
  case_decide; [done|]. by destruct (split_lines rest).
Qed.

Lemma split_lines_cons (c : char) (rest : str) :
  split_lines (c :: rest)
  = if decide (c = NEWLINE) then [] :: split_lines rest
    else match split_lines rest with
         | line :: lines => (c :: line) :: lines
         | [] => [[c]]
         end.
Proof. reflexivity. Qed.

Lemma join_lines_cons (line : str) (lines : list str) :
  lines ≠ [] → join_lines (line :: lines) = line ++ NEWLINE :: join_lines lines.
Proof. by destruct lines. Qed.

Lemma join_split_lines (text : str) : join_lines (split_lines text) = text.
Proof.
  induction text as [|c rest IH]; simpl; [done|].
  pose proof (split_lines_nonempty rest) as Hne.
  case_decide as Hc.
  - rewrite join_lines_cons by done. simpl. by rewrite IH, Hc.
  - destruct (split_lines rest) as [|line lines]; [done|].
    destruct lines as [|l2 lines]; simpl in *; by rewrite <- IH.
Qed.

Lemma split_lines_no_newline (line : str) :
  NEWLINE ∉ line → split_lines line = [line].
Proof.
  induction line as [|c rest IH]; simpl; [done|].
  intros [Hc Hrest]%not_elem_of_cons.
  rewrite decide_False by done. by rewrite IH.
Qed.

Lemma split_lines_app (line rest : str) :
  NEWLINE ∉ line →
  split_lines (line ++ NEWLINE :: rest) = line :: split_lines rest.
Proof.
  induction line as [|c line IH]; simpl.
  - done.
  - intros [Hc Hline]%not_elem_of_cons.
    rewrite decide_False by done. by rewrite IH.
Qed.

Lemma split_join_lines (lines : list str) :
  lines ≠ [] → Forall (fun line => NEWLINE ∉ line) lines →
  split_lines (join_lines lines) = lines.
Proof.
  induction lines as [|line lines IH]; [done|]. intros _ Hall.
  apply Forall_cons in Hall as [Hline Hall].
  destruct lines as [|l2 lines].
  - simpl. by apply split_lines_no_newline.
  - rewrite join_lines_cons by done. rewrite split_lines_app by done.
    by rewrite IH.
Qed.

Lemma split_lines_Forall (text : str) :
  Forall (fun line => NEWLINE ∉ line) (split_lines text).
Proof.
  induction text as [|c rest IH]; simpl.
  - constructor; [by intros ?%elem_of_nil|done].
  - case_decide as Hc.
    + constructor; [by intros ?%elem_of_nil|done].
    + destruct (split_lines rest) as [|line lines]; [|].
      * constructor; [|done]. intros Hin%list_elem_of_singleton. by subst c.
      * apply Forall_cons in IH as [Hl Hls]. constructor; [|done].
        intros [Heq|?]%elem_of_cons; [by subst c|done].
Qed.

(** Splitting commutes with two operations on characters that leave the line
    feed alone: a filter that keeps it, and a map that neither makes nor
    unmakes it. *)
Lemma split_lines_filter (p : char → bool) (text : str) :
  p NEWLINE = true →
  split_lines (List.filter p text) = List.filter p <$> split_lines text.
Proof.
  intros Hp. induction text as [|c rest IH]; simpl; [done|].
  pose proof (split_lines_nonempty rest) as Hne.
  case_decide as Hc.
  - subst c. rewrite Hp. simpl. by rewrite IH.
  - destruct (p c) eqn:Hpc; simpl.
    + rewrite decide_False by done. rewrite IH.
      destruct (split_lines rest) as [|line lines]; [done|]. simpl.
      by rewrite Hpc.
    + rewrite IH. destruct (split_lines rest) as [|line lines]; [done|]. simpl.
      by rewrite Hpc.
Qed.

Lemma split_lines_fmap (f : char → char) (text : str) :
  (∀ c, f c = NEWLINE ↔ c = NEWLINE) →
  split_lines (f <$> text) = fmap (M:=list) f <$> split_lines text.
Proof.
  intros Hf. induction text as [|c rest IH]; [done|].
  pose proof (split_lines_nonempty rest) as Hne.
  rewrite fmap_cons, !split_lines_cons, IH.
  destruct (decide (c = NEWLINE)) as [Hc|Hc].
  - by rewrite decide_True by by apply Hf.
  - rewrite decide_False by by rewrite Hf.
    by destruct (split_lines rest).
Qed.

(** *** [strip] *)

Lemma lstrip_suffix (s : str) : ∃ pre, s = pre ++ lstrip s.
Proof.
  induction s as [|c s [pre IH]]; simpl; [by exists []|].
  destruct (isspace c); [|by exists []].
  exists (c :: pre). simpl. by rewrite <- IH.
Qed.

Lemma lstrip_head (s : str) (c : char) :
  head (lstrip s) = Some c → isspace c = false.
Proof.
  induction s as [|c' s IH]; simpl; [done|].
  destruct (isspace c') eqn:Hc'; [done|]. simpl. by intros [= <-].
Qed.

Lemma lstrip_id (s : str) :
  (∀ c, head s = Some c → isspace c = false) → lstrip s = s.
Proof.
  destruct s as [|c s]; simpl; [done|]. intros Hc.
  by rewrite (Hc c eq_refl).
Qed.

Lemma head_reverse (s : str) : head (reverse s) = last s.
Proof.
  destruct s as [|c s _] using rev_ind; [done|].
  by rewrite reverse_app, last_snoc.
Qed.

Lemma last_reverse (s : str) : last (reverse s) = head s.
Proof. by rewrite <- head_reverse, reverse_involutive. Qed.

Lemma last_suffix (pre s : str) (c : char) :
  last s = Some c → last (pre ++ s) = Some c.
Proof.
  destruct s as [|c' s _] using rev_ind; [done|].
  rewrite last_snoc. intros [= ->]. by rewrite app_assoc, last_snoc.
Qed.

(** What [strip] returns neither begins nor ends with white space. *)
Lemma strip_ends (s : str) (c : char) :
  head (strip s) = Some c ∨ last (strip s) = Some c → isspace c = false.
Proof.
  unfold strip. rewrite head_reverse, last_reverse. intros [Hc|Hc].
  - destruct (lstrip_suffix (reverse (lstrip s))) as [pre Hpre].
    apply (last_suffix pre) in Hc. rewrite <- Hpre, last_reverse in Hc.
    by apply lstrip_head in Hc.
  - by apply lstrip_head in Hc.
Qed.

Lemma strip_id (s : str) :
  (∀ c, head s = Some c ∨ last s = Some c → isspace c = false) →
  strip s = s.
Proof.
  intros Hs. unfold strip.
  rewrite (lstrip_id s) by (intros c Hc; apply Hs; by left).
  rewrite lstrip_id; [by rewrite reverse_involutive|].
  intros c Hc. rewrite head_reverse in Hc. apply Hs. by right.
Qed.

Lemma strip_idemp (s : str) : strip (strip s) = strip s.
Proof. apply strip_id. intros c. apply strip_ends. Qed.

(** [strip] returns a piece of its argument, cut between white space. *)
Lemma strip_infix (s : str) :
  ∃ pre post, s = pre ++ strip s ++ post
    ∧ Forall (fun c => isspace c = true) pre
    ∧ Forall (fun c => isspace c = true) post.
Proof.
  assert (∀ t, ∃ pre, t = pre ++ lstrip t
                 ∧ Forall (fun c => isspace c = true) pre) as Hl.
  { induction t as [|c t (pre & IH & Hpre)]; simpl; [by exists []|].
    destruct (isspace c) eqn:Hc; [|by exists []].
    exists (c :: pre). split; [simpl; by rewrite <- IH|by constructor]. }
  destruct (Hl s) as (pre & Hs & Hpre).
  destruct (Hl (reverse (lstrip s))) as (post & Hr & Hpost).
  exists pre, (reverse post). split_and!; [|done|by apply Forall_reverse].
  unfold strip. rewrite <- reverse_app, <- Hr, reverse_involutive. done.
Qed.

End Strings.

(** ** More on the extraction engine *)

Section Engine.
Context `{PyLib}.

Lemma elem_of_split_lines (text line : str) (c : char) :
  line ∈ split_lines text → c ∈ line → c ∈ text.
Proof.
  intros Hl Hc. rewrite <- (join_split_lines text).
  induction (split_lines text) as [|l ls IH]; [by apply elem_of_nil in Hl|].
  destruct ls as [|l2 ls].
  - apply list_elem_of_singleton in Hl. by subst.
  - rewrite join_lines_cons by done.
    apply elem_of_cons in Hl as [->|Hl]; [set_solver|].
    apply elem_of_app. right. apply elem_of_cons. right. by apply IH.
Qed.

(** X1. A capture that is not empty once trimmed decides the entry: the
    trimmed capture with confidence 0.95 and method regex, whatever the
    keywords and whatever the matcher would find; the value neither begins
    nor ends with white space. *)
Theorem extract_regex_takes_priority (patterns : gmap str FieldSpec) (text : str)
    (results : gmap str ExtractionResult) (name : str) (config : FieldSpec)
    (groups : list (option str)) (g : str) :
  extract patterns text = inr results →
  patterns !! name = Some config →
  re_search (regex config) text = Some groups →
  last groups = Some (Some g) →
  strip g ≠ [] →
  results !! name
  = Some {| value := Some (strip g);
            confidence := py_float 0.95;
            method := MethodRegex |}
  ∧ ∀ c, head (strip g) = Some c ∨ last (strip g) = Some c → isspace c = false.
Proof.
  intros Hr Hp Hm Hg Hs. split; [|apply strip_ends].
  apply extract_inr in Hr as [_ Hin]. destruct (Hin _ _ Hp) as (d & Hd & ->).
  rewrite extract_field_fallback, (regex_stage_capture _ _ _ _ Hm Hg) in Hd.
  unfold with_fallback in Hd. cbn [fmap exc_fmap value regex_result value_truthy] in Hd.
  destruct (strip g) as [|c rest] eqn:Hsg; [done|]. simpl in Hd.
  injection Hd as <-. unfold regex_result. by rewrite Hsg.
Qed.





Lemma fuzzy_search_value (lines keywords : list str) (r : ExtractionResult) :
  _fuzzy_search lines keywords = Some r →
  ∃ line keyword v s,
    line ∈ lines ∧ keyword ∈ keywords
    ∧ r = {| value := Some v; confidence := calculate "fuzzy" s;
             method := MethodFuzzy s |}
    ∧ s = partial_ratio (str_lower keyword) (str_lower line)
    ∧ THRESHOLD ≤ s
    ∧ v ≠ [] ∧ number_token v ∧ existsb isdigit v = true
    ∧ ∃ pre post, line = pre ++ v ++ post.
Proof.
  intros Hr.
  apply fuzzy_search_provenance in Hr as (line & k & c & Hl & _ & Hk & Hc & ->).
  apply pair_candidate_Some in Hc as (Hth & Hlast & Hconf & Hsc).
  apply last_Some_elem_of in Hlast.
  apply elem_of_valid_values in Hlast as (Hin & Ht & Hd).
  apply findall_numbers_tokens in Hin as [Htok Hpiece].
  exists line, k, (cand_value c), (cand_score c).
  split_and!; try done.
  - unfold result_of. by rewrite Hconf, Hsc.
  - by rewrite Hsc.
  - destruct (cand_value c); [by rewrite strip_nil in Ht|done].
Qed.

(** X4. What an entry of the returned mapping can be. With method none it is
    the default. With method regex its confidence is 0.95 and its value a
    trimmed string, possibly empty. With a fuzzy method its value is a
    non-empty numeric token holding a digit, the recorded similarity is at
    least 85 and the confidence is the score of that similarity. *)
Theorem extract_entry_shape (patterns : gmap str FieldSpec) (text : str)
    (results : gmap str ExtractionResult) (name : str) (d : ExtractionResult) :
  extract patterns text = inr results →
  results !! name = Some d →
  match method d with
  | MethodNone => d = default_result
  | MethodRegex =>
      confidence d = py_float 0.95 ∧ ∃ v, value d = Some v ∧ strip v = v
  | MethodFuzzy s =>
      THRESHOLD ≤ s ∧ confidence d = calculate "fuzzy" s
      ∧ ∃ v, value d = Some v ∧ v ≠ [] ∧ number_token v
          ∧ existsb isdigit v = true
  end.
Proof.
  intros Hr Hd. destruct (extract_entry _ _ _ _ _ Hr Hd) as (config & _ & Hf).
  pose proof (extract_field_method _ _ _ _ Hf) as Hm.
  destruct (method d) as [| |s] eqn:Hmd; [done| |].
  - split; [done|].
    rewrite extract_field_fallback in Hf. unfold regex_stage, with_fallback in Hf.
    destruct (re_search _ _) as [groups|]; [destruct (last groups) as [[g|]|]|];
      simpl in Hf; try done.
    + destruct (truthy (strip g)).
      * injection Hf as <-. exists (strip g).
        split; [reflexivity|apply strip_idemp].
      * destruct (_fuzzy_search _ _) as [r|] eqn:Hfz; simpl in Hf;
          injection Hf as <-.
        -- apply fuzzy_search_value in Hfz
             as (? & ? & ? & ? & _ & _ & -> & _). discriminate Hmd.
        -- exists (strip g). split; [reflexivity|apply strip_idemp].
    + destruct (_fuzzy_search _ _) as [r|] eqn:Hfz; simpl in Hf;
        injection Hf as <-; [|discriminate Hmd].
      apply fuzzy_search_value in Hfz as (? & ? & ? & ? & _ & _ & -> & _).
      discriminate Hmd.
  - apply fuzzy_search_value in Hm
      as (line & k & v & s' & _ & _ & -> & _ & Hth & Hv & Htok & Hdig & _).
    simpl in Hmd. injection Hmd as ->. split_and!; [done|done|].
    by exists v.
Qed.

(** X5. The score of a similarity between 0 and 100 lies between 0.0 and
    0.95, whatever the method; for the fuzzy method it does not exceed
    0.85. *)
Theorem calculate_range (method : string) (q : Qc) :
  py_float 0 ≤ q → q ≤ py_float 100 →
  py_float 0 ≤ calculate method q ∧ calculate method q ≤ py_float 0.95
  ∧ (method = "fuzzy" → calculate method q ≤ py_float 0.85).
Proof.
  intros H0 H100.
  assert (py_float 0 ≤ py_float 0.95) as H1 by by vm_compute.
  assert (py_float 0.85 ≤ py_float 0.95) as H2 by by vm_compute.
  assert (py_float 0 ≤ calculate "fuzzy" q) as Hlo.
  { rewrite <- calculate_fuzzy_0. apply calculate_fuzzy_mono, H0. }
  assert (calculate "fuzzy" q ≤ py_float 0.85) as Hhi.
  { rewrite <- calculate_fuzzy_100. apply calculate_fuzzy_mono, H100. }
  destruct (decide (method = "regex")) as [->|Hr].
  - rewrite calculate_regex.
    split_and!; [exact H1|apply Qcle_refl|intros Heq; discriminate Heq].
  - destruct (decide (method = "fuzzy")) as [->|Hf].
    + split_and!; [exact Hlo| |intros _; exact Hhi].
      apply (Qcle_trans _ (py_float 0.85)); assumption.
    + rewrite calculate_other by assumption.
      split_and!; [apply Qcle_refl|exact H1|intros Heq; contradiction].
Qed.

(** X6. The confidence of an entry is 0.0, or 0.95, or lies between 0.72 and
    0.85: the first with method none, the second with method regex, the
    third with a fuzzy method. *)
Theorem extract_confidence_values (patterns : gmap str FieldSpec) (text : str)
    (results : gmap str ExtractionResult) (name : str) (d : ExtractionResult) :
  (∀ k l, partial_ratio k l ≤ py_float 100) →
  extract patterns text = inr results →
  results !! name = Some d →
  (method d = MethodNone ∧ confidence d = py_float 0)
  ∨ (method d = MethodRegex ∧ confidence d = py_float 0.95)
  ∨ ((∃ s, method d = MethodFuzzy s)
     ∧ py_float 0.72 ≤ confidence d ∧ confidence d ≤ py_float 0.85).
Proof.
  intros Hrange Hr Hd. destruct (extract_entry _ _ _ _ _ Hr Hd) as (config & _ & Hf).
  pose proof (extract_field_method _ _ _ _ Hf) as Hm.
  destruct (method d) as [| |s] eqn:Hmd.
  - left. subst d. split; reflexivity.
  - right. left. split; [reflexivity|exact Hm].
  - right. right. split; [by exists s|].
    destruct (fuzzy_search_confidence _ _ _ Hrange Hm)
      as (? & _ & _ & _ & _ & Hlo & Hhi). split; assumption.
Qed.

(** X7. Without a digit there is no approximate result: when no character
    of the lines is a digit, the matcher finds nothing, whatever the
    keywords and their similarities; on a text without a digit no entry of
    the mapping has a fuzzy method. *)
Theorem fuzzy_search_needs_digit (lines keywords : list str) :
  (∀ line c, line ∈ lines → c ∈ line → isdigit c = false) →
  _fuzzy_search lines keywords = None
  ∧ (∀ patterns text results name d s,
       lines = split_lines text →
       extract patterns text = inr results →
       results !! name = Some d →
       method d ≠ MethodFuzzy s).
Proof.
  intros Hnd.
  assert (∀ kws, _fuzzy_search lines kws = None) as Hnone.
  { intros kws. destruct (_fuzzy_search lines kws) as [r|] eqn:Hr; [|done].
    apply fuzzy_search_value in Hr
      as (line & k & v & s & Hl & _ & _ & _ & _ & _ & _ & Hdig & pre & post & Hv).
    apply existsb_exists in Hdig as (c & Hc & Hcd).
    rewrite (Hnd line c) in Hcd; [done|done|].
    rewrite Hv. apply list_elem_of_In in Hc. set_solver. }
  split; [apply Hnone|].
  intros patterns text results name d s -> Hr Hd Hmd.
  destruct (extract_entry _ _ _ _ _ Hr Hd) as (config & _ & Hf).
  apply extract_field_method in Hf. rewrite Hmd, Hnone in Hf. done.
Qed.

Lemma candidates_app (lines1 lines2 keywords : list str) :
  candidates (lines1 ++ lines2) keywords
  = candidates lines1 keywords ++ candidates lines2 keywords.
Proof.
  induction lines1 as [|l ls IH]; [done|].
  simpl. rewrite !candidates_cons, IH. by rewrite app_assoc.
Qed.

Lemma arbitrate_from (best : option Candidate) (cs : list Candidate) :
  foldl arbitrate_step best cs
  = match best, arbitrate cs with
    | Some a, Some b =>
        if decide (cand_confidence a < cand_confidence b) then Some b else Some a
    | Some a, None => Some a
    | None, r => r
    end.
Proof.
  destruct best as [a|]; [|reflexivity].
  induction cs as [|x cs IH] using rev_ind; [done|].
  rewrite arbitrate_snoc, foldl_app. simpl. rewrite IH.
  unfold arbitrate_step.
  destruct (arbitrate cs) as [b|]; [|done].
  destruct (decide (cand_confidence a < cand_confidence b)) as [Hab|Hab];
    destruct (decide (cand_confidence b < cand_confidence x)) as [Hbx|Hbx].
  - rewrite decide_True; [done|]. by apply (Qclt_trans _ (cand_confidence b)).
  - by rewrite decide_True.
  - done.
  - rewrite (decide_False (P := cand_confidence a < cand_confidence b)) by done.
    rewrite decide_False; [done|].
    apply Qcle_not_lt, (Qcle_trans _ (cand_confidence b)); by apply Qcnot_lt_le.
Qed.

(** X8. The matcher on a text in two parts: the result for the lines of both
    is the better of the results for each part, the one of the second part
    only when its confidence is strictly greater. Lines added after a
    result never lower its confidence, and lines without a candidate change
    nothing. *)
Theorem fuzzy_search_app (lines1 lines2 keywords : list str) :
  _fuzzy_search (lines1 ++ lines2) keywords
  = better (_fuzzy_search lines1 keywords) (_fuzzy_search lines2 keywords).
Proof.
  rewrite !fuzzy_search_arbitrate, candidates_app.
  unfold arbitrate at 1. rewrite foldl_app.
  fold (arbitrate (candidates lines1 keywords)). rewrite arbitrate_from.
  destruct (arbitrate (candidates lines1 keywords)) as [a|],
    (arbitrate (candidates lines2 keywords)) as [b|]; simpl; try done.
  by case_decide.
Qed.

End Engine.

(** ** [clean_text] *)

Section CleanText.
Context `{PyLib} `{PyText}.

Lemma sub_spaces_elem (in_run : bool) (line : str) (c : char) :
  c ∈ sub_spaces in_run line → c = SPACE ∨ c ∈ line.
Proof.
  revert in_run. induction line as [|ch rest IH]; intros in_run; simpl.
  - by intros ?%elem_of_nil.
  - destruct (isspace ch); [destruct in_run|].
    + intros [?|?]%IH; [by left|right; by right].
    + intros [->|[?|?]%IH]%elem_of_cons; [by left|by left|right; by right].
    + intros [->|[?|?]%IH]%elem_of_cons; [right; by left|by left|right; by right].
Qed.

Lemma strip_elem (s : str) (c : char) : c ∈ strip s → c ∈ s.
Proof.
  intros Hc. destruct (strip_infix s) as (pre & post & Hs & _).
  rewrite Hs. set_solver.
Qed.

Lemma clean_line_elem (line : str) (c : char) :
  c ∈ clean_line line → c = SPACE ∨ c ∈ line.
Proof. intros Hc%strip_elem. by apply sub_spaces_elem in Hc. Qed.

Lemma drop_unprintable_elem (text : str) (c : char) :
  c ∈ drop_unprintable text ↔
  c ∈ text ∧ (isprintable c = true ∨ c = NEWLINE).
Proof.
  unfold drop_unprintable.
  rewrite !list_elem_of_In, filter_In, orb_true_iff, bool_decide_eq_true.
  done.
Qed.

Lemma replace_nbsp_elem (text : str) (c : char) :
  c ∈ replace_nbsp text → c ≠ NBSP ∧ (c ∈ text ∨ c = SPACE).
Proof.
  unfold replace_nbsp. intros (ch & -> & Hch)%list_elem_of_fmap.
  case_decide as Hn; [|by split; [|left]].
  split; [done|by right].
Qed.

Lemma clean_source_line_elem (line : str) (c : char) :
  c ∈ clean_source_line line →
  c ≠ NBSP ∧ (c = SPACE ∨ c ∈ line ∧ (isprintable c = true ∨ c = NEWLINE)).
Proof.
  unfold clean_source_line. intros [->|Hc]%clean_line_elem.
  - split; [done|by left].
  - apply drop_unprintable_elem in Hc as [Hc Hp].
    apply replace_nbsp_elem in Hc as [Hn [Hc| ->]].
    + split; [done|]. right. by split.
    + split; [done|by left].
Qed.

Lemma clean_source_line_no_newline (line : str) :
  NEWLINE ∉ line → NEWLINE ∉ clean_source_line line.
Proof.
  intros Hn Hc. apply clean_source_line_elem in Hc as [_ [Hc|[Hc _]]]; done.
Qed.

(** The lines of [clean_text], through the splitting of both texts. *)
Lemma clean_text_split (text : str) :
  clean_text text = join_lines (clean_source_line <$> split_lines text).
Proof.
  unfold clean_text. destruct text as [|c rest]; [done|].
  cbn [truthy]. f_equal. unfold drop_unprintable, replace_nbsp.
  rewrite split_lines_filter by (by rewrite orb_true_r).
  rewrite split_lines_fmap.
  - rewrite <- !list_fmap_compose. done.
  - intros ch. case_decide; [by subst|done].
Qed.

(** X9. [clean_text] works line by line and keeps the lines apart: the
    lines of the cleaned text are the lines of the text, each cleaned on its
    own, so that their number is kept and no two lines are joined or
    split. *)
Theorem clean_text_lines (text : str) :
  split_lines (clean_text text) = clean_source_line <$> split_lines text
  ∧ length (split_lines (clean_text text)) = length (split_lines text).
Proof.
  assert (split_lines (clean_text text)
          = clean_source_line <$> split_lines text) as Hs.
  { rewrite clean_text_split. apply split_join_lines.
    - pose proof (split_lines_nonempty text). by destruct (split_lines text).
    - apply Forall_fmap. eapply Forall_impl; [apply split_lines_Forall|].
      intros line. apply clean_source_line_no_newline. }
  split; [done|]. by rewrite Hs, length_fmap.
Qed.

(** *** Single spaces *)

Lemma sub_spaces_head (line : str) (c : char) :
  head (sub_spaces true line) = Some c → isspace c = false.
Proof.
  induction line as [|ch rest IH]; simpl; [done|].
  destruct (isspace ch) eqn:Hch; [done|]. simpl. by intros [= <-].
Qed.

Lemma sub_spaces_single_spaced (in_run : bool) (line : str) :
  single_spaced (sub_spaces in_run line).
Proof.
  revert in_run. induction line as [|ch rest IH]; intros in_run; simpl; [done|].
  destruct (isspace ch) eqn:Hch; [destruct in_run|].
  - apply IH.
  - simpl. split; [|apply IH]. intros _. split; [done|apply sub_spaces_head].
  - simpl. split; [|apply IH]. congruence.
Qed.

Lemma single_spaced_sub_spaces (in_run : bool) (s : str) :
  single_spaced s →
  (in_run = true → ∀ c, head s = Some c → isspace c = false) →
  sub_spaces in_run s = s.
Proof.
  revert in_run. induction s as [|ch rest IH]; intros in_run; simpl; [done|].
  intros [Hch Hrest] Hrun. destruct (isspace ch) eqn:Hsp.
  - destruct (Hch eq_refl) as [-> Hnext].
    destruct in_run; [by rewrite (Hrun eq_refl SPACE eq_refl) in Hsp|].
    by rewrite IH.
  - by rewrite IH.
Qed.

Lemma single_spaced_app (s1 s2 : str) :
  single_spaced (s1 ++ s2) → single_spaced s1 ∧ single_spaced s2.
Proof.
  induction s1 as [|ch rest IH]; simpl; [done|].
  intros [Hch Hrest]. destruct (IH Hrest) as [H1 H2]. split_and!; [|done|done].
  intros Hsp. destruct (Hch Hsp) as [-> Hnext]. split; [done|].
  intros ch' Hh. apply Hnext. by destruct rest.
Qed.

Lemma clean_line_single_spaced (line : str) : single_spaced (clean_line line).
Proof.
  unfold clean_line.
  destruct (strip_infix (sub_spaces false line)) as (pre & post & Hs & _).
  pose proof (sub_spaces_single_spaced false line) as Hss. rewrite Hs in Hss.
  apply single_spaced_app in Hss as [_ Hss].
  by apply single_spaced_app in Hss as [Hss _].
Qed.

Lemma clean_line_id (s : str) :
  single_spaced s → strip s = s → clean_line s = s.
Proof.
  intros Hss Hs. unfold clean_line. by rewrite single_spaced_sub_spaces.
Qed.

(** X10. A line of the cleaned text is trimmed, holds white space only as
    single spaces, and holds no character that is not printable other than
    such spaces: trimming it or cleaning it again changes nothing, and the
    matcher skips it exactly when it is empty. *)
Theorem clean_text_line_normal (text line : str) :
  line ∈ split_lines (clean_text text) →
  strip line = line
  ∧ single_spaced line
  ∧ clean_line line = line
  ∧ truthy (strip line) = truthy line
  ∧ Forall (fun c => c ≠ NBSP ∧ c ≠ NEWLINE
                     ∧ (isprintable c = true ∨ c = SPACE)) line.
Proof.
  destruct (clean_text_lines text) as [-> _].
  intros (src & -> & Hsrc)%list_elem_of_fmap.
  assert (strip (clean_source_line src) = clean_source_line src) as Hs
    by apply strip_idemp.
  pose proof (clean_line_single_spaced (drop_unprintable (replace_nbsp src)))
    as Hss. fold (clean_source_line src) in Hss.
  split_and!; [done|done|by apply clean_line_id|by rewrite Hs|].
  apply Forall_forall. intros c Hc.
  pose proof (Forall_forall (fun l => NEWLINE ∉ l) (split_lines text)) as Hnl.
  apply proj1 in Hnl. specialize (Hnl (split_lines_Forall text) _ Hsrc).
  pose proof (clean_source_line_no_newline src Hnl) as Hnl'.
  apply clean_source_line_elem in Hc as Hc'.
  destruct Hc' as [Hn [->|[Hin [Hp| ->]]]].
  - split_and!; [done|done|by right].
  - split_and!; [done| |by left]. by intros ->.
  - done.
Qed.

Lemma replace_nbsp_id (s : str) : NBSP ∉ s → replace_nbsp s = s.
Proof.
  unfold replace_nbsp. induction s as [|c s IH]; [done|].
  intros [Hc Hs]%not_elem_of_cons. rewrite fmap_cons, IH by done.
  by rewrite decide_False.
Qed.

Lemma drop_unprintable_id (s : str) :
  (∀ c, c ∈ s → isprintable c = true ∨ c = NEWLINE) → drop_unprintable s = s.
Proof.
  unfold drop_unprintable. induction s as [|c s IH]; [done|].
  intros Hs. simpl.
  destruct (Hs c) as [Hp| ->]; [by left| |].
  - rewrite Hp. simpl. rewrite IH; [done|]. intros c' Hc'. apply Hs. by right.
  - rewrite orb_true_r. rewrite IH; [done|]. intros c' Hc'. apply Hs. by right.
Qed.

Lemma clean_source_line_idemp (line : str) :
  isprintable SPACE = true →
  clean_source_line (clean_source_line line) = clean_source_line line.
Proof.
  intros Hsp. unfold clean_source_line at 1.
  rewrite replace_nbsp_id, drop_unprintable_id.
  - apply clean_line_id; [apply clean_line_single_spaced|apply strip_idemp].
  - intros c Hc. apply clean_source_line_elem in Hc as [_ [->|[_ Hp]]]; [|done].
    by left.
  - intros Hc. by apply clean_source_line_elem in Hc as [Hn _].
Qed.

(** X11. Cleaning twice is cleaning once, the space being printable. *)
Theorem clean_text_idempotent (text : str) :
  isprintable SPACE = true →
  clean_text (clean_text text) = clean_text text.
Proof.
  intros Hsp. rewrite (clean_text_split (clean_text text)).
  destruct (clean_text_lines text) as [-> _].
  rewrite (clean_text_split text), <- list_fmap_compose. f_equal.
  apply list_fmap_ext. intros i line _. simpl.
  by apply clean_source_line_idemp.
Qed.

End CleanText.

(** ** [normalize_amount] and the table of [main] *)

Section Amounts.
Context `{PyLib} `{PyText}.

Lemma float_of_decimal_nonneg (q : Q) (x : Qc) :
  (0 <= q)%Q → float_of_decimal q = Finite x → py_float 0 ≤ x.
Proof.
  intros Hq. unfold float_of_decimal. destruct (Qle_bool _ _); [done|].
  intros [= <-]. by apply py_float_mono.
Qed.

Lemma parse_decimal_nonneg (cleaned : str) (q : Q) :
  parse_decimal cleaned = Some q → (0 <= q)%Q.
Proof.
  unfold parse_decimal.
  destruct (drop _ cleaned) as [|ch frac].
  - destruct (truthy _); [|done]. intros [= <-].
    change 0%Q with (inject_Z 0). rewrite <- Zle_Qle. lia.
  - destruct (_ && _); [|done]. intros [= <-].
    apply Qle_shift_div_l.
    + change 0%Q with (inject_Z 0). rewrite <- Zlt_Qlt.
      apply Z.pow_pos_nonneg; lia.
    + rewrite Qmult_0_l. change 0%Q with (inject_Z 0). rewrite <- Zle_Qle. lia.
Qed.

Lemma amount_chars_idemp (s : str) : amount_chars (amount_chars s) = amount_chars s.
Proof.
  unfold amount_chars. induction s as [|c s IH]; simpl; [done|].
  destruct (re_digit c || bool_decide (c = DOT)) eqn:Hc; simpl; [|done].
  by rewrite Hc, IH.
Qed.

(** X12. [normalize_amount] never raises and never returns a negative
    number: it reads the digits and dots of the string and nothing else, so
    that a sign is lost with the other characters. *)
Theorem normalize_amount_nonneg (amount_str : str) :
  (∀ x, normalize_amount amount_str = Finite x → py_float 0 ≤ x)
  ∧ normalize_amount amount_str = normalize_amount (amount_chars amount_str).
Proof.
  split.
  - intros x. unfold normalize_amount. destruct (truthy amount_str).
    + destruct (parse_decimal _) as [q|] eqn:Hq.
      * apply float_of_decimal_nonneg. by apply parse_decimal_nonneg in Hq.
      * intros [= <-]. apply Qcle_refl.
    + intros [= <-]. apply Qcle_refl.
  - unfold normalize_amount. rewrite amount_chars_idemp.
    destruct amount_str as [|c s]; [done|]. cbn [truthy].
    destruct (amount_chars (c :: s)) as [|c' s'] eqn:Ha; [|done].
    reflexivity.
Qed.

Lemma count_occ_digits (s : str) :
  re_digit DOT = false →
  Forall (fun c => re_digit c = true) s → count_occ N.eq_dec s DOT = 0%nat.
Proof.
  intros Hdot Hs. apply count_occ_not_In. intros Hin%list_elem_of_In.
  rewrite Forall_forall in Hs. specialize (Hs _ Hin). congruence.
Qed.

Lemma parse_decimal_dots (cleaned : str) (q : Q) :
  re_digit DOT = false →
  parse_decimal cleaned = Some q →
  (count_occ N.eq_dec cleaned DOT <= 1)%nat.
Proof.
  intros Hdot. unfold parse_decimal.
  pose proof (take_while_drop re_digit cleaned) as Hx.
  pose proof (take_while_Forall re_digit cleaned) as Hw.
  destruct (drop _ cleaned) as [|ch frac].
  - intros _. rewrite <- Hx, app_nil_r, count_occ_digits by done. lia.
  - destruct (bool_decide (ch = DOT)) eqn:Hch; [|done].
    destruct (forallb re_digit frac) eqn:Hf; [|done]. intros _.
    apply bool_decide_eq_true in Hch as ->.
    rewrite forallb_forall in Hf.
    rewrite <- Hx, count_occ_app, count_occ_cons_eq by done.
    rewrite !count_occ_digits; [lia|done| |done|done].
    apply Forall_forall. intros c Hc. apply Hf. by apply list_elem_of_In.
Qed.

Lemma amount_chars_app (s1 s2 : str) :
  amount_chars (s1 ++ s2) = amount_chars s1 ++ amount_chars s2.
Proof. unfold amount_chars. apply List.filter_app. Qed.

Lemma amount_chars_dot (s : str) : amount_chars (DOT :: s) = DOT :: amount_chars s.
Proof. unfold amount_chars. simpl. by rewrite orb_true_r. Qed.

(** X13. A string with two dots normalises to 0.0, whatever its digits: the
    conversion fails and the error is absorbed. A currency marker written
    with a dot before an amount with a decimal point is such a string. *)
Theorem normalize_amount_two_dots (amount_str a b c : str) :
  re_digit DOT = false →
  amount_str = a ++ DOT :: b ++ DOT :: c →
  normalize_amount amount_str = Finite (py_float 0).
Proof.
  intros Hdot ->. unfold normalize_amount.
  destruct (truthy _); [|done].
  destruct (parse_decimal _) as [q|] eqn:Hq; [|done].
  apply parse_decimal_dots in Hq; [|done].
  rewrite amount_chars_app, amount_chars_dot, amount_chars_app, amount_chars_dot in Hq.
  rewrite count_occ_app, count_occ_cons_eq, count_occ_app, count_occ_cons_eq in Hq
    by done.
  lia.
Qed.

Lemma take_while_app_stop (p : char → bool) (s1 s2 : str) :
  Forall (fun c => p c = true) s1 →
  (∀ c, head s2 = Some c → p c = false) →
  take_while p (s1 ++ s2) = s1.
Proof.
  intros Hs1 Hs2. induction Hs1 as [|c s1 Hc Hs1 IH]; simpl.
  - destruct s2 as [|c s2]; [done|]. simpl. by rewrite (Hs2 c eq_refl).
  - by rewrite Hc, IH.
Qed.

Lemma take_while_all (p : char → bool) (s : str) :
  Forall (fun c => p c = true) s → take_while p s = s.
Proof. induction 1 as [|c s Hc Hs IH]; simpl; [done|]. by rewrite Hc, IH. Qed.

Lemma amount_chars_digits (s : str) :
  Forall (fun c => re_digit c = true) s → amount_chars s = s.
Proof.
  unfold amount_chars. induction 1 as [|c s Hc Hs IH]; simpl; [done|].
  by rewrite Hc, IH.
Qed.

Lemma amount_chars_body (body : str) :
  COMMA ≠ DOT →
  Forall (fun c => number_class c = true) body →
  amount_chars body = List.filter re_digit body
  ∧ Forall (fun c => re_digit c = true) (List.filter re_digit body).
Proof.
  intros _ Hbody. split.
  - unfold amount_chars. induction Hbody as [|c s Hc Hs IH]; simpl; [done|].
    rewrite IH. unfold number_class in Hc.
    destruct (re_digit c) eqn:Hd; [done|]. simpl in *.
    apply bool_decide_eq_true in Hc as ->. done.
  - apply Forall_forall. intros c Hc%list_elem_of_In.
    by apply filter_In in Hc as [_ Hc].
Qed.

(** A numeric token with a digit is read as a number. *)
Lemma parse_decimal_token (v : str) :
  re_digit DOT = false →
  number_token v → existsb re_digit v = true →
  ∃ q, parse_decimal (amount_chars v) = Some q.
Proof.
  intros Hdot (body & dot & frac & -> & _ & Hbody & Hd & Hfrac) Hex.
  destruct (amount_chars_body body) as [Hab Hdb]; [done|done|].
  rewrite !amount_chars_app, Hab, (amount_chars_digits frac) by done.
  assert (truthy (List.filter re_digit body) || truthy frac = true) as Hany.
  { apply existsb_exists in Hex as (c & Hc & Hcd).
    apply in_app_or in Hc as [Hc|Hc]; [|apply in_app_or in Hc as [Hc|Hc]].
    - assert (In c (List.filter re_digit body)) as Hin by by apply filter_In.
      by destruct (List.filter re_digit body).
    - destruct Hd as [-> | ->]; [done|].
      destruct Hc as [<-|[]]. congruence.
    - destruct frac; [done|]. by rewrite orb_true_r. }
  unfold parse_decimal. destruct Hd as [-> | ->].
  - rewrite amount_chars_digits by done. rewrite app_nil_l.
    rewrite take_while_all, drop_all by by apply Forall_app.
    destruct (List.filter re_digit body ++ frac) eqn:Hall; [|by eexists].
    apply app_eq_nil in Hall as [Hb Hf]. rewrite Hb, Hf in Hany.
    discriminate Hany.
  - rewrite amount_chars_dot. simpl.
    rewrite take_while_app_stop, drop_app_length; [|done|].
    + rewrite bool_decide_eq_true_2 by done.
      assert (forallb re_digit frac = true) as ->.
      { apply forallb_forall. intros c Hc%list_elem_of_In.
        rewrite Forall_forall in Hfrac. by apply Hfrac. }
      rewrite Hany. by eexists.
    + simpl. by intros c [= <-].
Qed.

(** X14. What the matcher returns is always read as a number by
    [normalize_amount]: the conversion does not fail and the result is the
    float of the number its digits and its dot write, not the 0.0 of the
    error case. *)
Theorem normalize_amount_of_matcher_value (lines keywords : list str)
    (r : ExtractionResult) (v : str) :
  re_digit DOT = false → isdigit COMMA = false → isdigit DOT = false →
  _fuzzy_search lines keywords = Some r →
  value r = Some v →
  ∃ q, parse_decimal (amount_chars v) = Some q
    ∧ normalize_amount v = float_of_decimal q.
Proof.
  intros Hdot Hic Hid Hr Hv.
  apply fuzzy_search_value in Hr
    as (line & k & v' & s & _ & _ & -> & _ & _ & Hne & Htok & Hdig & _).
  simpl in Hv. injection Hv as ->.
  assert (existsb re_digit v = true) as Hre.
  { apply existsb_exists in Hdig as (c & Hc & Hcd).
    apply existsb_exists. exists c. split; [done|].
    destruct Htok as (body & dot & frac & -> & _ & Hbody & Hd & Hfrac).
    apply in_app_or in Hc as [Hc|Hc]; [|apply in_app_or in Hc as [Hc|Hc]].
    - rewrite Forall_forall in Hbody.
      specialize (Hbody c (proj2 (list_elem_of_In _ _) Hc)).
      unfold number_class in Hbody. destruct (re_digit c); [done|].
      simpl in Hbody. apply bool_decide_eq_true in Hbody as ->. congruence.
    - destruct Hd as [-> | ->]; [done|]. destruct Hc as [<-|[]]. congruence.
    - rewrite Forall_forall in Hfrac.
      apply Hfrac. by apply list_elem_of_In. }
  destruct (parse_decimal_token v Hdot Htok Hre) as [q Hq].
  exists q. split; [done|]. unfold normalize_amount.
  destruct v; [done|]. cbn [truthy]. by rewrite Hq.
Qed.

(** X15. The value cell of the table that [main] prints. An entry without a
    value or with an empty one is shown as Not Found; such an entry is the
    default or the entry of a pattern that matched an empty capture, which
    is shown with the confidence 0.95 and the method regex all the same. An
    entry of a fuzzy method always shows its value. *)
Theorem display_value_not_found (patterns : gmap str FieldSpec) (text : str)
    (results : gmap str ExtractionResult) (name : str) (d : ExtractionResult) :
  extract patterns text = inr results →
  results !! name = Some d →
  (value_truthy (value d) = false →
     display_value d = u "Not Found"
     ∧ (d = default_result
        ∨ d = {| value := Some []; confidence := py_float 0.95;
                 method := MethodRegex |}))
  ∧ (value_truthy (value d) = true → value d = Some (display_value d))
  ∧ (∀ s, method d = MethodFuzzy s → value d = Some (display_value d)).
Proof.
  intros Hr Hd. pose proof (extract_entry_shape _ _ _ _ _ Hr Hd) as Hshape.
  assert (value_truthy (value d) = true → value d = Some (display_value d)) as Ht.
  { unfold display_value. by destruct (value d) as [[|c v]|]. }
  split_and!; [|done|].
  - intros Hv. split.
    + unfold display_value. by destruct (value d) as [[|c v]|].
    + destruct d as [v c m]. cbn [method value confidence] in *.
      destruct m as [| |s].
      * by left.
      * right. destruct Hshape as (-> & v' & -> & _).
        destruct v'; [reflexivity|discriminate Hv].
      * destruct Hshape as (_ & _ & v' & -> & Hne & _). by destruct v'.
  - intros s Hm. apply Ht. rewrite Hm in Hshape.
    destruct Hshape as (_ & _ & v' & -> & Hne & _). by destruct v'.
Qed.

End Amounts.

(** ** The pipeline of [main]: cleaning, then extraction *)

Section Pipeline.
Context `{PyLib} `{PyText}.

(** X16. Cleaning makes no digit: on a raw text without a digit, the
    pipeline of [main], [extract] after [clean_text], gives no entry of a
    fuzzy method, whatever the registry. *)
Theorem pipeline_needs_digit (raw : str) (patterns : gmap str FieldSpec)
    (results : gmap str ExtractionResult) (name : str) (d : ExtractionResult)
    (s : Qc) :
  isdigit SPACE = false →
  (∀ c, c ∈ raw → isdigit c = false) →
  extract patterns (clean_text raw) = inr results →
  results !! name = Some d →
  method d ≠ MethodFuzzy s.
Proof.
  intros Hsp Hraw Hr Hd.
  assert (∀ line c, line ∈ split_lines (clean_text raw) → c ∈ line →
                    isdigit c = false) as Hnd.
  { intros line c Hl Hc. destruct (clean_text_lines raw) as [Hs _].
    rewrite Hs in Hl. apply list_elem_of_fmap in Hl as (src & -> & Hsrc).
    apply clean_source_line_elem in Hc as [_ [->|[Hc _]]]; [done|].
    apply Hraw. by eapply elem_of_split_lines. }
  exact (proj2 (fuzzy_search_needs_digit _ [] Hnd) _ _ _ _ _ s eq_refl Hr Hd).
Qed.

End Pipeline.

Section Order.
Context `{PyLib}.

Lemma arbitrate_max (cs : list Candidate) (c : Candidate) :
  arbitrate cs = Some c →
  c ∈ cs ∧ ∀ c', c' ∈ cs → cand_confidence c' ≤ cand_confidence c.
Proof.
  intros (pre & post & -> & Hpre & Hpost)%arbitrate_Some.
  split; [set_solver|].
  intros c' [Hc'|[->|Hc']%elem_of_cons]%elem_of_app.
  - rewrite Forall_forall in Hpre. by apply Qclt_le_weak, Hpre.
  - apply Qcle_refl.
  - rewrite Forall_forall in Hpost. by apply Hpost.
Qed.

(** X17. The confidence the matcher returns does not depend on the order
    of the lines or of the keywords, nor on repetitions among them: two
    inputs with the same lines and the same keywords give the same
    confidence, or nothing both. The order decides only which of equally
    confident values is returned. *)
Theorem fuzzy_search_confidence_order_free
    (lines lines' keywords keywords' : list str) :
  (∀ l, l ∈ lines ↔ l ∈ lines') →
  (∀ k, k ∈ keywords ↔ k ∈ keywords') →
  confidence <$> _fuzzy_search lines keywords
  = confidence <$> _fuzzy_search lines' keywords'.
Proof.
  intros Hl Hk.
  assert (∀ c, c ∈ candidates lines keywords ↔ c ∈ candidates lines' keywords')
    as Hcs.
  { intros c. rewrite !elem_of_candidates.
    split; intros (l & k & ? & ? & ? & ?); exists l, k;
      (split_and!; [by apply Hl|done|by apply Hk|done]). }
  rewrite !fuzzy_search_arbitrate.
  destruct (arbitrate (candidates lines keywords)) as [c|] eqn:Hc,
    (arbitrate (candidates lines' keywords')) as [c'|] eqn:Hc'; simpl.
  - apply arbitrate_max in Hc as [Hin Hmax], Hc' as [Hin' Hmax'].
    f_equal. apply Qcle_antisym.
    + apply Hmax', Hcs, Hin.
    + apply Hmax, Hcs, Hin'.
  - apply arbitrate_max in Hc as [Hin _]. apply arbitrate_None in Hc'.
    apply Hcs in Hin. rewrite Hc' in Hin. by apply elem_of_nil in Hin.
  - apply arbitrate_max in Hc' as [Hin _]. apply arbitrate_None in Hc.
    apply Hcs in Hin. rewrite Hc in Hin. by apply elem_of_nil in Hin.
  - done.
Qed.

End Order.

(** ** These properties on the inputs of the examples *)

Section MoreExamples.
Local Existing Instance sample_lib.
Local Existing Instance ascii_text.

Example clean_text_sample :
  clean_text (u "  Premium :   25,000" ++ [9; 160; 10; 32; 10; 0]%N ++ u "x ")
  = u "Premium : 25,000" ++ [10; 10]%N ++ u "x".
Proof. by vm_compute. Qed.

Example normalize_amount_plain :
  normalize_amount (u "25,000.00") = Finite (py_float 25000).
Proof. by vm_compute. Qed.

Lemma extract_regex_takes_priority_witness :
  ({[ u "policy_number" := regex_result (u "ABC12345") ]}
     : gmap str ExtractionResult) !! u "policy_number"
  = Some {| value := Some (strip (u "ABC12345"));
            confidence := py_float 0.95;
            method := MethodRegex |}
  ∧ ∀ c, head (strip (u "ABC12345")) = Some c
         ∨ last (strip (u "ABC12345")) = Some c → isspace c = false.
Proof.
  apply (extract_regex_takes_priority
           {[ u "policy_number" := POLICY_NUMBER ]} (u "Policy Number: ABC12345")
           _ _ POLICY_NUMBER [Some (u "Policy Number"); Some (u "ABC12345")]).
  - apply scenario_a.
  - apply lookup_singleton_eq.
  - by vm_compute.
  - reflexivity.
  - by vm_compute.
Defined.




Lemma extract_entry_shape_witness :
  THRESHOLD ≤ py_float 100
  ∧ py_float 0.85 = calculate "fuzzy" (py_float 100)
  ∧ ∃ v, Some (u "25,000.00") = Some v ∧ v ≠ [] ∧ number_token v
      ∧ existsb isdigit v = true.
Proof.
  apply (extract_entry_shape {[ u "premium" := PREMIUM ]} PREMIUM_TEXT
           {[ u "premium" := fuzzy_result (u "25,000.00") 0.85 100 ]}
           (u "premium") (fuzzy_result (u "25,000.00") 0.85 100)).
  - apply scenario_b.
  - apply lookup_singleton_eq.
Defined.

Lemma calculate_range_witness :
  py_float 0 ≤ calculate "fuzzy" (py_float 90)
  ∧ calculate "fuzzy" (py_float 90) ≤ py_float 0.95
  ∧ ("fuzzy" = "fuzzy" → calculate "fuzzy" (py_float 90) ≤ py_float 0.85).
Proof.
  apply (calculate_range "fuzzy" (py_float 90)); by vm_compute.
Defined.

Lemma extract_confidence_values_witness :
  (MethodFuzzy (py_float 100) = MethodNone ∧ py_float 0.85 = py_float 0)
  ∨ (MethodFuzzy (py_float 100) = MethodRegex ∧ py_float 0.85 = py_float 0.95)
  ∨ ((∃ s, MethodFuzzy (py_float 100) = MethodFuzzy s)
     ∧ py_float 0.72 ≤ py_float 0.85 ∧ py_float 0.85 ≤ py_float 0.85).
Proof.
  apply (extract_confidence_values {[ u "premium" := PREMIUM ]} PREMIUM_TEXT
           {[ u "premium" := fuzzy_result (u "25,000.00") 0.85 100 ]}
           (u "premium") (fuzzy_result (u "25,000.00") 0.85 100)).
  - apply sample_ratios_range.
  - apply scenario_b.
  - apply lookup_singleton_eq.
Defined.

Lemma unrelated_text_no_digit (line : str) (c : char) :
  line ∈ split_lines UNRELATED_TEXT → c ∈ line → isdigit c = false.
Proof.
  assert (split_lines UNRELATED_TEXT = [UNRELATED_TEXT]) as -> by by vm_compute.
  intros ->%list_elem_of_singleton Hc%list_elem_of_In.
  assert (forallb (fun c => negb (isdigit c)) UNRELATED_TEXT = true) as Hall
    by by vm_compute.
  rewrite forallb_forall in Hall. by apply negb_true_iff, Hall.
Qed.

Lemma fuzzy_search_needs_digit_witness :
  _fuzzy_search (split_lines UNRELATED_TEXT) (keywords PREMIUM) = None.
Proof.
  apply (proj1 (fuzzy_search_needs_digit (split_lines UNRELATED_TEXT)
                  (keywords PREMIUM) unrelated_text_no_digit)).
Defined.

Lemma clean_text_line_normal_witness :
  strip (u "a b") = u "a b"
  ∧ single_spaced (u "a b")
  ∧ clean_line (u "a b") = u "a b"
  ∧ truthy (strip (u "a b")) = truthy (u "a b")
  ∧ Forall (fun c => c ≠ NBSP ∧ c ≠ NEWLINE
                     ∧ (isprintable c = true ∨ c = SPACE)) (u "a b").
Proof.
  apply (clean_text_line_normal (u "  a   b ") (u "a b")).
  vm_compute. by left.
Defined.

Lemma clean_text_idempotent_witness :
  clean_text (clean_text (u "  a   b ")) = clean_text (u "  a   b ").
Proof. apply clean_text_idempotent. reflexivity. Defined.

Lemma normalize_amount_nonneg_witness : py_float 0 ≤ py_float 5.
Proof.
  apply (proj1 (normalize_amount_nonneg (u "-5."))). by vm_compute.
Defined.

Lemma normalize_amount_two_dots_witness :
  normalize_amount (u "Rs. 25,000.00") = Finite (py_float 0).
Proof.
  apply (normalize_amount_two_dots _ (u "Rs") (u " 25,000") (u "00"));
    reflexivity.
Defined.

Lemma normalize_amount_of_matcher_value_witness :
  ∃ q, parse_decimal (amount_chars (u "25,000.00")) = Some q
    ∧ normalize_amount (u "25,000.00") = float_of_decimal q.
Proof.
  apply (normalize_amount_of_matcher_value (split_lines PREMIUM_TEXT)
           (keywords PREMIUM) (fuzzy_result (u "25,000.00") 0.85 100));
    [reflexivity|reflexivity|reflexivity|by vm_compute|reflexivity].
Defined.

Lemma empty_capture_extract :
  extract {[ u "premium" := PREMIUM_EMPTY_CAPTURE ]} (u "Premium:")
  = inr {[ u "premium" := regex_result [] ]}.
Proof. apply extract_singleton_inr. by vm_compute. Qed.

Lemma display_value_not_found_witness :
  display_value (regex_result []) = u "Not Found"
  ∧ (regex_result [] = default_result
     ∨ regex_result []
       = {| value := Some []; confidence := py_float 0.95;
            method := MethodRegex |}).
Proof.
  apply (proj1 (display_value_not_found
                  {[ u "premium" := PREMIUM_EMPTY_CAPTURE ]} (u "Premium:")
                  {[ u "premium" := regex_result [] ]} (u "premium")
                  (regex_result []) empty_capture_extract
                  (lookup_singleton_eq _ _))).
  reflexivity.
Defined.

Lemma pipeline_needs_digit_witness :
  method default_result ≠ MethodFuzzy (py_float 100).
Proof.
  apply (pipeline_needs_digit UNRELATED_TEXT {[ u "premium" := PREMIUM ]}
           {[ u "premium" := default_result ]} (u "premium")).
  - reflexivity.
  - intros c Hc. apply (unrelated_text_no_digit UNRELATED_TEXT c); [|done].
    vm_compute. by left.
  - apply extract_singleton_inr. by vm_compute.
  - apply lookup_singleton_eq.
Defined.

Lemma fuzzy_search_confidence_order_free_witness :
  confidence <$> _fuzzy_search SUM_ASSURED_LINES (keywords SUM_ASSURED)
  = confidence <$> _fuzzy_search SUM_ASSURED_LINES_REV (keywords SUM_ASSURED).
Proof.
  apply fuzzy_search_confidence_order_free; [|done].
  intros l. unfold SUM_ASSURED_LINES, SUM_ASSURED_LINES_REV.
  rewrite !elem_of_cons, !elem_of_nil. tauto.
Defined.

End MoreExamples.
